(** * Multiplayer globe: the connection registry and broadcast engine

    A shallow embedding of [src/server/index.ts] (class [Globe]) and of the
    message types of [src/shared.ts], together with the fan-out loop of
    the repository's other server file, whose [Globe] keeps no registry.  The handlers are
    written in a small state-and-exception monad: the state is the pair of
    maps owned by [Globe] plus what the handlers can see of the transport,
    the log records every message handed to a connection, and an exception
    is a [send] that throws.  Strings are the UTF-8 text of the JavaScript
    strings they stand for. *)

From stdpp Require Import gmap strings list fin_maps.

Open Scope string_scope.

(** ** The JavaScript runtime the server runs on

    Numbers are kept abstract: the engine only parses them and carries
    them.  The payload of a new record is built from [Math.random()] and
    [Date.now()]; [Draws] holds the values of those expressions, and
    [entropy k] gives the values obtained when the generator has already
    been read [k] times. *)

Record Draws (N : Type) := mkDraws {
  draw_loanAmount : N;          (* Math.floor(Math.random() * 5000) + 500 *)
  draw_outstandingBalance : N;  (* Math.floor(Math.random() * 5000) + 100 *)
  draw_missedPayments : N;      (* Math.floor(Math.random() * 5) *)
  draw_dueDate : string;        (* new Date(Date.now() + Math.random() * ...).toISOString() *)
  draw_interestRate : N;        (* 5 + Math.random() * 10 *)
  draw_defaulted : bool;        (* Math.random() > 0.7 *)
  draw_phoneDigits : string;    (* Math.floor(Math.random() * 90000000 + 10000000) *)
}.
Arguments mkDraws {N}.
Arguments draw_loanAmount {N}.
Arguments draw_outstandingBalance {N}.
Arguments draw_missedPayments {N}.
Arguments draw_dueDate {N}.
Arguments draw_interestRate {N}.
Arguments draw_defaulted {N}.
Arguments draw_phoneDigits {N}.

(** Number of [Math.random()] calls made by one payload generation. *)
Definition draws_per_payload : nat := 7.

Class Runtime := {
  number : Type;
  parseFloat : string → number;
  entropy : nat → Draws number;
}.

(** ** [String.prototype.slice] on UTF-8 text

    JavaScript counts a string in UTF-16 code units: a code point below
    U+10000 is one unit, whatever the length of its UTF-8 form, and a
    code point from U+10000 on is a pair of surrogates. *)

(** The bytes that follow a lead byte in its code point. *)
Definition utf8_tail (c : Ascii.ascii) : nat :=
  match c with
  | Ascii.Ascii _ _ _ _ b4 b5 b6 b7 =>
      if negb b7 then 0         (* 0xxxxxxx *)
      else if negb b6 then 0    (* 10xxxxxx: not a lead byte *)
      else if negb b5 then 1    (* 110xxxxx *)
      else if negb b4 then 2    (* 1110xxxx *)
      else 3                    (* 11110xxx *)
  end.

Definition is_ascii (c : Ascii.ascii) : bool :=
  match c with Ascii.Ascii _ _ _ _ _ _ _ b7 => negb b7 end.

(** The first surrogate of the code point whose UTF-8 form is [b0]
    followed by [rest], as the three bytes of generalized UTF-8. *)
Definition high_surrogate (b0 : Ascii.ascii) (rest : string) : string :=
  match rest with
  | String b1 (String b2 _) =>
      let v := (N.land (Ascii.N_of_ascii b0) 7 * 256
                + N.land (Ascii.N_of_ascii b1) 63 * 4
                + N.shiftr (N.land (Ascii.N_of_ascii b2) 63) 4 - 64)%N in
      String (Ascii.ascii_of_N 237)
        (String (Ascii.ascii_of_N (160 + N.shiftr v 6))
           (String (Ascii.ascii_of_N (128 + N.land v 63)) ""))
  | _ => ""
  end.

(** The text up to the first [units] code units of [s]; [pending] counts
    the bytes still to copy of a code point already let in.  When one
    unit is left and the next code point takes two, its first surrogate
    is kept alone, as [slice] does. *)
Fixpoint take_units (units pending : nat) (s : string) : string :=
  match s with
  | "" => ""
  | String c s' =>
      match pending with
      | S p => String c (take_units units p s')
      | 0 =>
          match units, utf8_tail c with
          | 0, _ => ""
          | S u, 3 =>
              match u with
              | 0 => high_surrogate c s'
              | S u' => String c (take_units u' 3 s')
              end
          | S u, t => String c (take_units u t s')
          end
      end
  end.

(** [s.slice(0, n)] *)
Definition slice_to (n : nat) (s : string) : string := take_units n 0 s.

(** ** An insertion-ordered map, as JavaScript's [Map] iterates *)

Section JsMap.
Context {V : Type}.

Fixpoint jsmap_get (k : string) (m : list (string * V)) : option V :=
  match m with
  | [] => None
  | (k', v) :: m' => if decide (k' = k) then Some v else jsmap_get k m'
  end.

(** [set] overwrites in place when the key is there and appends
    otherwise. *)
Fixpoint jsmap_set (k : string) (v : V) (m : list (string * V))
  : list (string * V) :=
  match m with
  | [] => [(k, v)]
  | (k', v') :: m' =>
      if decide (k' = k) then (k', v) :: m' else (k', v') :: jsmap_set k v m'
  end.

Fixpoint jsmap_delete (k : string) (m : list (string * V))
  : list (string * V) :=
  match m with
  | [] => []
  | (k', v) :: m' =>
      if decide (k' = k) then jsmap_delete k m' else (k', v) :: jsmap_delete k m'
  end.

Definition jsmap_keys (m : list (string * V)) : list string := m.*1.
End JsMap.

(** ** A state-and-exception monad with a send log *)

Section Monad.
Context {St Msg : Type}.

(** [None] in the first component: an exception is propagating. *)
Definition M (A : Type) : Type :=
  St → list (string * Msg) → option A * St * list (string * Msg).

Definition ret {A} (a : A) : M A := λ s log, (Some a, s, log).

Definition bind {A B} (m : M A) (k : A → M B) : M B :=
  λ s log,
    match m s log with
    | (Some a, s', log') => k a s' log'
    | (None, s', log') => (None, s', log')
    end.

Definition throw {A} : M A := λ s log, (None, s, log).

(** [try { body } catch { handler }] *)
Definition try_catch (body handler : M unit) : M unit :=
  λ s log,
    match body s log with
    | (Some a, s', log') => (Some a, s', log')
    | (None, s', log') => handler s' log'
    end.

Definition gets {A} (f : St → A) : M A := λ s log, (Some (f s), s, log).
Definition modify (f : St → St) : M unit := λ s log, (Some tt, f s, log).

(** [conn.send(msg)]: throws when the connection is one of [broken],
    otherwise hands [msg] to it. *)
Definition send (broken : gset string) (to : string) (msg : Msg) : M unit :=
  λ s log,
    if decide (to ∈ broken) then (None, s, log)
    else (Some tt, s, (log ++ [(to, msg)])%list).

(** [for (const x of xs) body(x)] *)
Fixpoint for_each {A} (xs : list A) (body : A → M unit) : M unit :=
  match xs with
  | [] => ret tt
  | x :: xs' => bind (body x) (λ _, for_each xs' body)
  end.

(** The transport library's [broadcast(msg, without)]: one [send] to
    every connection of [getConnections()] whose id is not listed in
    [without].  A send that throws does not leave the loop: the library
    closes that connection ([close], with code 1011) and goes on with
    the next one. *)
Definition broadcast (close : string → St → St) (broken : gset string)
    (connections : list string) (msg : Msg) (without : list string) : M unit :=
  for_each connections (λ c,
    if decide (c ∈ without) then ret tt
    else try_catch (send broken c msg) (modify (close c))).
End Monad.

Arguments M : clear implicits.

#[global] Instance M_ret St Msg : MRet (M St Msg) := @ret St Msg.
#[global] Instance M_bind St Msg : MBind (M St Msg) := λ A B k m, bind m k.

(** ** Shared types ([src/shared.ts]) and connection state *)

Inductive Status := active | defaulted | paid | legal.

Section Engine.
Context `{Runtime}.

Record Position := mkPosition {
  lat : number;
  lng : number;
  id : string;
}.

Record DebtorInfo := mkDebtorInfo {
  position : Position;
  loanAmount : number;
  outstandingBalance : number;
  missedPayments : number;
  lastPaymentDate : option string;
  dueDate : string;
  phoneNumber : option string;
  name : option string;
  interestRate : number;
  status : Status;
}.

(** [OutgoingMessage], extended with the error object that [onConnect]
    sends outside that type.  The wire form is [JSON.stringify] of these;
    [message_type] is the [type] tag of the serialized object. *)
Inductive Message :=
| add_debtor (debtor : DebtorInfo)
| update_debtor (debtor : DebtorInfo)
| remove_debtor (id : string)
| error (message : string).

Definition message_type (m : Message) : string :=
  match m with
  | add_debtor _ => "add-debtor"
  | update_debtor _ => "update-debtor"
  | remove_debtor _ => "remove-debtor"
  | error _ => "error"
  end.

Record ConnectionState := mkConnectionState {
  userId : string;
  connectionId : string;
}.

(** What [onConnect] reads of [ctx.request]: the query string of the url
    as the ordered pairs [URLSearchParams] holds, and the platform's [cf]
    object. *)
Record Cf := mkCf {
  latitude : option string;
  longitude : option string;
}.

Record Request := mkRequest {
  searchParams : list (string * string);
  cf : option Cf;
}.

(** [url.searchParams.get(name)]: the first value, or null. *)
Definition searchParams_get (name : string) (ctx : Request) : option string :=
  jsmap_get name (searchParams ctx).

(** Truthiness of a [string | null | undefined]. *)
Definition truthy (v : option string) : bool :=
  match v with
  | Some s => bool_decide (s ≠ "")
  | None => false
  end.

(** [a || b] on such values. *)
Definition js_or (a : option string) (b : string) : string :=
  match a with
  | Some s => if bool_decide (s ≠ "") then s else b
  | None => b
  end.

(** ** The state of a [Globe] instance and of its transport *)

Record World := mkWorld {
  debtors : list (string * DebtorInfo);        (* Map<string, DebtorInfo> *)
  userConnections : gmap string (gset string); (* Map<string, Set<string>> *)
  connState : gmap string ConnectionState;     (* conn.state, by conn.id *)
  live : list string;                          (* getConnections(): the open sockets *)
  closed : gset string;                        (* closed by the server, close callback still to run *)
  rng : nat;                                   (* Math.random() calls so far *)
}.

Definition set_debtors (f : list (string * DebtorInfo) → list (string * DebtorInfo))
    (w : World) : World :=
  mkWorld (f (debtors w)) (userConnections w) (connState w) (live w) (closed w) (rng w).

Definition set_userConnections
    (f : gmap string (gset string) → gmap string (gset string)) (w : World) : World :=
  mkWorld (debtors w) (f (userConnections w)) (connState w) (live w) (closed w) (rng w).

Definition set_connState
    (f : gmap string ConnectionState → gmap string ConnectionState) (w : World) : World :=
  mkWorld (debtors w) (userConnections w) (f (connState w)) (live w) (closed w) (rng w).

Definition set_live (f : list string → list string) (w : World) : World :=
  mkWorld (debtors w) (userConnections w) (connState w) (f (live w)) (closed w) (rng w).

Definition set_closed (f : gset string → gset string) (w : World) : World :=
  mkWorld (debtors w) (userConnections w) (connState w) (live w) (f (closed w)) (rng w).

Definition set_rng (f : nat → nat) (w : World) : World :=
  mkWorld (debtors w) (userConnections w) (connState w) (live w) (closed w) (f (rng w)).

Definition Globe := M World Message.

(** [this.broadcast(msg, without)] *)
Definition this_broadcast (broken : gset string) (msg : Message)
    (without : list string) : Globe unit :=
  connections ← gets live;
  broadcast (λ c, set_closed (λ cs, cs ∪ {[c]})) broken connections msg without.

(** ** [Globe.onConnect] *)

(** Lines 67-83: the record of a user seen for the first time. *)
Definition new_debtorInfo (userId latitude longitude : string) (d : Draws number)
    : DebtorInfo :=
  let position :=
    {| lat := parseFloat latitude; lng := parseFloat longitude; id := userId |} in
  {| position := position;
     loanAmount := draw_loanAmount d;
     outstandingBalance := draw_outstandingBalance d;
     missedPayments := draw_missedPayments d;
     lastPaymentDate := None;
     dueDate := draw_dueDate d;
     interestRate := draw_interestRate d;
     status := if draw_defaulted d then defaulted else active;
     name := Some ("Debtor " +:+ slice_to 6 userId);
     phoneNumber := Some ("+855 " +:+ draw_phoneDigits d) |}.

(** Lines 96-97: the position of an existing record, updated in place. *)
Definition update_position (latitude longitude : string) (d : DebtorInfo)
    : DebtorInfo :=
  {| position :=
       {| lat := parseFloat latitude; lng := parseFloat longitude;
          id := id (position d) |};
     loanAmount := loanAmount d;
     outstandingBalance := outstandingBalance d;
     missedPayments := missedPayments d;
     lastPaymentDate := lastPaymentDate d;
     dueDate := dueDate d;
     phoneNumber := phoneNumber d;
     name := name d;
     interestRate := interestRate d;
     status := status d |}.

Definition resolve_userId (conn : string) (ctx : Request) : string :=
  js_or (searchParams_get "userId" ctx) conn.

(** Lines 21-38: the pair (latitude, longitude) after the choice between
    the query parameters and the platform's location. *)
Definition resolve_position (ctx : Request) : option string * option string :=
  let queryLat := searchParams_get "lat" ctx in
  let queryLng := searchParams_get "lng" ctx in
  if truthy queryLat && truthy queryLng then (queryLat, queryLng)
  else (cf ctx ≫= latitude, cf ctx ≫= longitude).

Definition onConnect (broken : gset string) (conn : string) (ctx : Request)
    : Globe unit :=
  let userId := resolve_userId conn ctx in
  let '(latitude, longitude) := resolve_position ctx in
  if negb (truthy latitude) || negb (truthy longitude) then
    send broken conn (error "GPS position required to use this application");;
    modify (set_closed (λ cs, cs ∪ {[conn]}))
  else
    let latitude := default "" latitude in
    let longitude := default "" longitude in
    (* Save connection state *)
    modify (set_connState
              <[conn := {| userId := userId; connectionId := conn |}]>);;
    (* Track this connection for the user *)
    has ← gets (λ w, bool_decide (is_Some (userConnections w !! userId)));
    (if has : bool then mret tt
     else modify (set_userConnections <[userId := ∅]>));;
    modify (set_userConnections
              (λ uc, <[userId := default ∅ (uc !! userId) ∪ {[conn]}]> uc));;
    (* Check if this user already exists *)
    debtorInfo ← gets (λ w, jsmap_get userId (debtors w));
    match debtorInfo with
    | None =>
        k ← gets rng;
        let debtorInfo := new_debtorInfo userId latitude longitude (entropy k) in
        modify (set_rng (λ _, k + draws_per_payload));;
        modify (set_debtors (jsmap_set userId debtorInfo));;
        this_broadcast broken (add_debtor debtorInfo) []
    | Some debtorInfo =>
        let debtorInfo := update_position latitude longitude debtorInfo in
        modify (set_debtors (jsmap_set userId debtorInfo));;
        send broken conn (add_debtor debtorInfo);;
        ds ← gets debtors;
        for_each ds (λ '(otherUserId, otherDebtor),
          if decide (otherUserId ≠ userId)
          then send broken conn (add_debtor otherDebtor)
          else mret tt)
    end.

(** ** [Globe.handleDisconnect], [onClose] and [onError] *)

Definition handleDisconnect (broken : gset string) (connection : string)
    : Globe unit :=
  state ← gets (λ w, connState w !! connection);
  match state with
  | None => mret tt
  | Some state =>
      let userId := userId state in
      let connectionId := connectionId state in
      userConns ← gets (λ w, userConnections w !! userId);
      match userConns with
      | None => mret tt
      | Some userConns =>
          let userConns := userConns ∖ {[connectionId]} in
          modify (set_userConnections <[userId := userConns]>);;
          if decide (size userConns = 0) then
            modify (set_userConnections (delete userId));;
            modify (set_debtors (jsmap_delete userId));;
            this_broadcast broken (remove_debtor userId) [connectionId]
          else mret tt
      end
  end.

Definition onClose := handleDisconnect.
Definition onError := handleDisconnect.

(** ** The transport's event loop

    The transport registers a connection before it calls [onConnect] (a
    new connection object has no state yet).  [getConnections()] yields
    the open sockets only: a socket that closes is gone from it before
    its close or error callback runs, and so is a socket the server has
    closed, by [conn.close()] or inside [broadcast].  Neither handler
    reads [getConnections()] again after closing a socket, so the sockets
    closed during an event are dropped from [live] when the handler
    returns.  Each event names the connections on which [send] throws
    while the event is handled.  An exception that leaves a handler ends
    the event; the mutations made so far stay. *)

Inductive Event :=
| EvConnect (conn : string) (ctx : Request) (broken : gset string)
| EvClose (conn : string) (broken : gset string)
| EvError (conn : string) (broken : gset string).

(** A new socket with id [conn] is open and has no state. *)
Definition accept (conn : string) (w : World) : World :=
  set_live (λ l, if decide (conn ∈ l) then l else (l ++ [conn])%list)
    (set_connState (delete conn) (set_closed (λ cs, cs ∖ {[conn]}) w)).

(** The socket [conn] has closed: it is no longer open, and its close is
    no longer pending. *)
Definition forget (conn : string) (w : World) : World :=
  set_live (filter (λ c, c ≠ conn)) (set_closed (λ cs, cs ∖ {[conn]}) w).

(** The sockets the server has closed are no longer open. *)
Definition sweep (w : World) : World :=
  set_live (filter (λ c, c ∉ closed w)) w.

Definition exec (m : Globe unit) (w : World) : World * list (string * Message) :=
  let '(_, w', log) := m w [] in (w', log).

Definition step (w : World) (ev : Event) : World * list (string * Message) :=
  match ev with
  | EvConnect conn ctx broken =>
      let '(w', log) := exec (onConnect broken conn ctx) (accept conn w) in
      (sweep w', log)
  | EvClose conn broken =>
      let '(w', log) := exec (onClose broken conn) (forget conn w) in
      (sweep w', log)
  | EvError conn broken =>
      let '(w', log) := exec (onError broken conn) (forget conn w) in
      (sweep w', log)
  end.

Fixpoint run (w : World) (evs : list Event) : World * list (string * Message) :=
  match evs with
  | [] => (w, [])
  | ev :: evs' =>
      let '(w1, log1) := step w ev in
      let '(w2, log2) := run w1 evs' in
      (w2, (log1 ++ log2)%list)
  end.

Definition init : World :=
  {| debtors := []; userConnections := ∅; connState := ∅; live := [];
     closed := ∅; rng := 0 |}.

End Engine.

(** ** The other server file: every connection carries its own record

    The repository holds a second [Globe] whose [onConnect] walks
    [getConnections()] itself, inside [try]/[catch].  There is no registry
    and no store: the record of a connection is its state. *)

Module PerConnection.
Section Loop.
Context `{Runtime}.

Record ConnectionState := mkConnectionState {
  debtor : DebtorInfo;
}.

Record World := mkWorld {
  connections : list (string * option ConnectionState); (* getConnections(), with state *)
  closed : gset string;
  rng : nat;
}.

Definition Globe := M World Message.

Definition setState (conn : string) (st : ConnectionState) (w : World) : World :=
  mkWorld
    (map (λ '(c, old), if decide (c = conn) then (c, Some st) else (c, old))
         (connections w))
    (closed w) (rng w).

Definition this_broadcast (broken : gset string) (msg : Message)
    (without : list string) : Globe unit :=
  cs ← gets connections;
  broadcast (λ c w, mkWorld (connections w) (closed w ∪ {[c]}) (rng w))
    broken cs.*1 msg without.

Definition onCloseOrError (broken : gset string) (connection : string)
    : Globe unit :=
  this_broadcast broken (remove_debtor connection) [connection].

Definition onConnect (broken : gset string) (conn : string) (ctx : Request)
    : Globe unit :=
  let '(latitude, longitude) := resolve_position ctx in
  if negb (truthy latitude) || negb (truthy longitude) then
    send broken conn (error "GPS position required to use this application");;
    modify (λ w, mkWorld (connections w) (closed w ∪ {[conn]}) (rng w))
  else
    let latitude := default "" latitude in
    let longitude := default "" longitude in
    k ← gets rng;
    let debtorInfo := new_debtorInfo conn latitude longitude (entropy k) in
    modify (λ w, mkWorld (connections w) (closed w) (k + draws_per_payload));;
    (* And save this on the connection's state *)
    modify (setState conn {| debtor := debtorInfo |});;
    (* Now, let's send the entire state to the new connection *)
    cs ← gets connections;
    for_each cs (λ '(connection_id, connection_state),
      try_catch
        (match connection_state with
         | Some st => send broken conn (add_debtor (debtor st))
         | None => throw
         end;;
         if decide (connection_id ≠ conn)
         then send broken connection_id (add_debtor debtorInfo)
         else mret tt)
        (onCloseOrError broken conn)).

Definition onClose := onCloseOrError.
Definition onError := onCloseOrError.

End Loop.
End PerConnection.

(** ** A concrete runtime, for running the handlers on examples

    Numbers are represented by their text, every payload generation draws
    the same values. *)

Definition sample_draws : Draws string :=
  {| draw_loanAmount := "1500"; draw_outstandingBalance := "700";
     draw_missedPayments := "2"; draw_dueDate := "2026-01-01T00:00:00.000Z";
     draw_interestRate := "7.5"; draw_defaulted := false;
     draw_phoneDigits := "12345678" |}.

Definition text_runtime : Runtime :=
  {| number := string; parseFloat := λ s, s; entropy := λ _, sample_draws |}.

(** The request of a client that sends its identity and coordinates. *)
Definition query (userId lat lng : string) : Request :=
  {| searchParams := [("userId", userId); ("lat", lat); ("lng", lng)];
     cf := None |}.

(** ** Derived notions used in the statements *)

(** Who is handed the message of a [broadcast], in order, and whom the
    [broadcast] closes. *)
Definition recipients (broken : gset string) (connections without : list string)
    : list string :=
  filter (λ c, (c ∉ without) ∧ (c ∉ broken)) connections.

Definition casualties (broken : gset string) (connections without : list string)
    : list string :=
  filter (λ c, (c ∉ without) ∧ (c ∈ broken)) connections.

(** Every message a computation hands out satisfies [P]. *)
Definition emits {St Msg A : Type} (P : string * Msg → Prop) (m : M St Msg A)
    : Prop :=
  ∀ s log, ∃ out, (m s log).2 = (log ++ out)%list ∧ Forall P out.

Section Notions.
Context `{Runtime}.

(** The test of line 40, negated. *)
Definition has_position (ctx : Request) : bool :=
  truthy (resolve_position ctx).1 && truthy (resolve_position ctx).2.

Definition latitude_of (ctx : Request) : string :=
  default "" (resolve_position ctx).1.
Definition longitude_of (ctx : Request) : string :=
  default "" (resolve_position ctx).2.

(** Lines 51-60 as one update. *)
Definition track (userId conn : string) (w : World) : World :=
  set_userConnections
    (λ uc, <[userId := default ∅ (uc !! userId) ∪ {[conn]}]> uc)
    (set_connState <[conn := {| userId := userId; connectionId := conn |}]> w).

(** Lines 73-85 as one update. *)
Definition create (userId : string) (ctx : Request) (w : World) : World :=
  set_debtors
    (jsmap_set userId
       (new_debtorInfo userId (latitude_of ctx) (longitude_of ctx) (entropy (rng w))))
    (set_rng (λ _, rng w + draws_per_payload) w).

(** Lines 96-97 as one update. *)
Definition rejoin (userId : string) (ctx : Request) (d : DebtorInfo) (w : World)
    : World :=
  set_debtors
    (jsmap_set userId (update_position (latitude_of ctx) (longitude_of ctx) d)) w.

(** Lines 108-117: the other records, each sent to [conn]. *)
Definition snapshot (userId conn : string) (ds : list (string * DebtorInfo))
    : list (string * Message) :=
  map (λ p, (conn, add_debtor p.2)) (filter (λ p, p.1 ≠ userId) ds).

(** Lines 142-143 as one update. *)
Definition evict (userId : string) (w : World) : World :=
  set_debtors (jsmap_delete userId) (set_userConnections (delete userId) w).

(** The connections [cs] have been closed by the server. *)
Definition shut (cs : list string) (w : World) : World :=
  set_closed (λ x, x ∪ list_to_set cs) w.

(** What the statements of [onConnect] leave behind and what the handler
    hands out, as functions of the state it starts from.  The connections
    its [broadcast] closes on the way are [connect_casualties] below. *)
Definition connect_world (broken : gset string) (conn : string) (ctx : Request)
    (w : World) : World :=
  let u := resolve_userId conn ctx in
  if has_position ctx then
    match jsmap_get u (debtors w) with
    | None => create u ctx (track u conn w)
    | Some d => rejoin u ctx d (track u conn w)
    end
  else if decide (conn ∈ broken) then w
  else set_closed (λ cs, cs ∪ {[conn]}) w.

Definition connect_log (broken : gset string) (conn : string) (ctx : Request)
    (w : World) : list (string * Message) :=
  let u := resolve_userId conn ctx in
  if has_position ctx then
    match jsmap_get u (debtors w) with
    | None =>
        map (λ c, (c, add_debtor (new_debtorInfo u (latitude_of ctx)
                                    (longitude_of ctx) (entropy (rng w)))))
            (recipients broken (live w) [])
    | Some d =>
        if decide (conn ∈ broken) then []
        else (conn, add_debtor (update_position (latitude_of ctx)
                                  (longitude_of ctx) d))
             :: snapshot u conn (debtors (rejoin u ctx d w))
    end
  else if decide (conn ∈ broken) then []
  else [(conn, error "GPS position required to use this application")].

(** The same for [handleDisconnect]. *)
Definition disconnect_world (connection : string) (w : World) : World :=
  match connState w !! connection with
  | None => w
  | Some st =>
      match userConnections w !! userId st with
      | None => w
      | Some conns =>
          if decide (conns ∖ {[connectionId st]} = ∅) then evict (userId st) w
          else set_userConnections
                 <[userId st := conns ∖ {[connectionId st]}]> w
      end
  end.

Definition disconnect_log (broken : gset string) (connection : string)
    (w : World) : list (string * Message) :=
  match connState w !! connection with
  | None => []
  | Some st =>
      match userConnections w !! userId st with
      | None => []
      | Some conns =>
          if decide (conns ∖ {[connectionId st]} = ∅)
          then map (λ c, (c, remove_debtor (userId st)))
                   (recipients broken (live w)
                      [connectionId st])
          else []
      end
  end.

(** The connections the [broadcast] of each handler closes: those it is
    meant for on which the send throws. *)
Definition connect_casualties (broken : gset string) (conn : string)
    (ctx : Request) (w : World) : list string :=
  if has_position ctx then
    match jsmap_get (resolve_userId conn ctx) (debtors w) with
    | None => casualties broken (live w) []
    | Some _ => []
    end
  else [].

Definition disconnect_casualties (broken : gset string) (connection : string)
    (w : World) : list string :=
  match connState w !! connection with
  | None => []
  | Some st =>
      match userConnections w !! userId st with
      | None => []
      | Some conns =>
          if decide (conns ∖ {[connectionId st]} = ∅)
          then casualties broken (live w) [connectionId st]
          else []
      end
  end.

(** The connection has no state, or its state names a set that is gone
    or that no longer holds it. *)
Definition settled (connection : string) (w : World) : Prop :=
  match connState w !! connection with
  | None => True
  | Some st =>
      match userConnections w !! userId st with
      | None => True
      | Some conns => (connectionId st ∉ conns) ∧ conns ≠ ∅
      end
  end.



(** The registry holds no empty set, and the store and the registry have
    the same keys. *)
Definition consistent (w : World) : Prop :=
  (∀ u, is_Some (jsmap_get u (debtors w)) ↔ is_Some (userConnections w !! u))
  ∧ (∀ u S, userConnections w !! u = Some S → S ≠ ∅).

(** Every record is filed under the id of its position, which is not
    empty. *)
Definition ids_match (w : World) : Prop :=
  Forall (λ p : string * DebtorInfo, id (position p.2) = p.1 ∧ p.1 ≠ "")
         (debtors w).

Definition event_conn (ev : Event) : string :=
  match ev with
  | EvConnect conn _ _ | EvClose conn _ | EvError conn _ => conn
  end.

(** The message types this server may emit. *)
Definition emitted_type (m : Message) : Prop :=
  message_type m ≠ "update-debtor"
  ∧ (message_type m = "add-debtor" ∨ message_type m = "remove-debtor"
     ∨ message_type m = "error").

Definition is_add (m : Message) : bool :=
  match m with add_debtor _ => true | _ => false end.

Definition is_remove (m : Message) : bool :=
  match m with remove_debtor _ => true | _ => false end.

(** The messages handed to connection [c], in order. *)
Definition inbox (c : string) (log : list (string * Message)) : list Message :=
  (filter (λ p : string * Message, p.1 = c) log).*2.

End Notions.

(** ** Sample requests and states *)

(** A client that sends no coordinates, behind a platform that locates it. *)
Definition located_by_platform : Request :=
  {| searchParams := [("userId", "u1")];
     cf := Some {| latitude := Some "11.56"; longitude := Some "104.92" |} |}.

(** A client that sends no coordinates and that the platform cannot
    locate. *)
Definition no_position : Request :=
  {| searchParams := [("userId", "u9")]; cf := None |}.

Section Samples.
Context `{Runtime}.

(** A with identity u1 and B with identity u2 are connected. *)
Definition two_users : World :=
  (run init [EvConnect "A" (query "u1" "1" "1") ∅;
             EvConnect "B" (query "u2" "2" "2") ∅]).1.

(** C has joined as a second connection of u2. *)
Definition two_tabs : World :=
  (step two_users (EvConnect "C" (query "u2" "3" "3") ∅)).1.

(** The second server with A and B connected, and C registered by the
    transport but not yet handled. *)
Definition three_connections : PerConnection.World :=
  {| PerConnection.connections :=
       [("A", Some {| PerConnection.debtor := new_debtorInfo "A" "1" "1" (entropy 0) |});
        ("B", Some {| PerConnection.debtor := new_debtorInfo "B" "2" "2" (entropy 7) |});
        ("C", None)];
     PerConnection.closed := ∅;
     PerConnection.rng := 14 |}.

End Samples.

Definition sample_runtime : Runtime := text_runtime.

(** ** Further notions: handles, identities of events, record shape *)

Section MoreNotions.
Context `{Runtime}.

(** The connections the transport still holds: the open ones, and those
    the server has closed whose close callback has not run yet. *)
Definition known (w : World) (c : string) : Prop :=
  c ∈ live w ∨ c ∈ closed w.

(** The transport hands out handles that are unique among the connections
    it holds: each connect event brings a handle that is neither open nor
    waiting for its close callback at that moment. *)
Fixpoint well_sequenced (w : World) (evs : list Event) : Prop :=
  match evs with
  | [] => True
  | ev :: evs' =>
      match ev with
      | EvConnect conn _ _ => ¬ known w conn
      | _ => True
      end
      ∧ well_sequenced (step w ev).1 evs'
  end.

(** The registry and the states of the connections describe each other. *)
Definition mirrored (w : World) : Prop :=
  (∀ c st, connState w !! c = Some st → connectionId st = c)
  ∧ (∀ u conns c, userConnections w !! u = Some conns → c ∈ conns →
       known w c
       ∧ connState w !! c = Some {| userId := u; connectionId := c |})
  ∧ (∀ c st, known w c → connState w !! c = Some st →
       ∃ conns, userConnections w !! userId st = Some conns ∧ c ∈ conns).

(** The identity an event works on, if any: the resolved identity of a
    connect with a usable position, the identity in the state of a
    connection that closes. *)
Definition event_identity (w : World) (ev : Event) : option string :=
  match ev with
  | EvConnect conn ctx _ =>
      if has_position ctx then Some (resolve_userId conn ctx) else None
  | EvClose conn _ | EvError conn _ => userId <$> connState w !! conn
  end.

(** What lines 73-83 fix once and for all in a record. *)
Definition generated_shape (d : DebtorInfo) : Prop :=
  (status d = active ∨ status d = defaulted)
  ∧ lastPaymentDate d = None
  ∧ name d = Some ("Debtor " +:+ slice_to 6 (id (position d)))
  ∧ ∃ digits, phoneNumber d = Some ("+855 " +:+ digits).

(** What a message says about the store, before and after its event. *)
Definition truthful (before after : World) (m : Message) : Prop :=
  match m with
  | add_debtor d => ∃ k, jsmap_get k (debtors after) = Some d
  | update_debtor _ => False
  | remove_debtor u =>
      is_Some (jsmap_get u (debtors before)) ∧ jsmap_get u (debtors after) = None
  | error _ => debtors after = debtors before
  end.

(** The second server, one turn of its loop when no send fails: the
    messages handed out for the entry [(cid, st)] of [getConnections()]. *)
Definition loop_turn (conn : string) (new : DebtorInfo) (ids : list string)
    (entry : string * option PerConnection.ConnectionState)
    : list (string * Message) :=
  match entry.2 with
  | Some st =>
      (conn, add_debtor (PerConnection.debtor st))
      :: (if decide (entry.1 ≠ conn) then [(entry.1, add_debtor new)] else [])
  | None =>
      map (λ p, (p, remove_debtor conn)) (filter (λ p, p ∉ [conn]) ids)
  end.

(** The records the connections of the second server carry, in the order
    of [getConnections()]. *)
Definition carried_records (w : PerConnection.World) : list DebtorInfo :=
  omap (λ e, PerConnection.debtor <$> e.2) (PerConnection.connections w).

End MoreNotions.

(** ** The client's persistent identity ([src/client/index.tsx]) *)

Module Client.

Definition STORAGE_KEY : string := "bones_locator_user_id".

(** [getPersistentUserId()], with the browser's [localStorage] passed
    through.  [now] is the decimal text of [Date.now()] and [rand] the
    text of [Math.random().toString(36).substr(2, 9)]. *)
Definition getPersistentUserId (now rand : string)
    (localStorage : gmap string string) : string * gmap string string :=
  let userId := localStorage !! STORAGE_KEY in
  if truthy userId then (default "" userId, localStorage)
  else
    let userId := "user_" +:+ now +:+ "_" +:+ rand in
    (userId, <[STORAGE_KEY := userId]> localStorage).

(** The query the socket is opened with: [lat], [lng] and [userId]. *)
Definition socket_query (lat lng userId : string) : Request :=
  {| searchParams := [("lat", lat); ("lng", lng); ("userId", userId)];
     cf := None |}.

End Client.

(** ** Further sample data *)

(** A connects as u1 and B as u2; C connects as u3 while every send to A
    fails; then the close of A arrives. *)
Definition lossy_start : list Event :=
  [EvConnect "A" (query "u1" "1" "1") ∅;
   EvConnect "B" (query "u2" "2" "2") ∅;
   EvConnect "C" (query "u3" "3" "3") {["A"]}].


Section MoreSamples.
Context `{Runtime}.

(** The second server with A connected, Z registered without state, and C
    registered by the transport but not yet handled. *)
Definition stale_peer : PerConnection.World :=
  {| PerConnection.connections :=
       [("A", Some {| PerConnection.debtor :=
                        new_debtorInfo "A" "1" "1" (entropy 0) |});
        ("Z", None);
        ("C", None)];
     PerConnection.closed := ∅;
     PerConnection.rng := 7 |}.

End MoreSamples.

(** * Properties *)

(** ** The insertion-ordered map *)

Section JsMapFacts.
Context {V : Type}.
Implicit Types (m : list (string * V)) (k : string) (v : V).

Lemma jsmap_get_set_eq k v m : jsmap_get k (jsmap_set k v m) = Some v.
Proof.
  induction m as [|[k' v'] m IH]; simpl.
  - by rewrite decide_True.
  - destruct (decide (k' = k)) as [->|Hne]; simpl.
    + by rewrite decide_True.
    + by rewrite decide_False.
Qed.

Lemma jsmap_get_set_ne k k' v m :
  k ≠ k' → jsmap_get k' (jsmap_set k v m) = jsmap_get k' m.
Proof.
  intros Hne. induction m as [|[k0 v0] m IH]; simpl.
  - by rewrite decide_False.
  - destruct (decide (k0 = k)) as [->|Hk0]; simpl.
    + by rewrite !decide_False.
    + by rewrite IH.
Qed.

Lemma jsmap_get_delete_eq k m : jsmap_get k (jsmap_delete k m) = None.
Proof.
  induction m as [|[k' v'] m IH]; simpl; [done|].
  destruct (decide (k' = k)); simpl; [done|]. by rewrite decide_False.
Qed.

Lemma jsmap_get_delete_ne k k' m :
  k ≠ k' → jsmap_get k' (jsmap_delete k m) = jsmap_get k' m.
Proof.
  intros Hne. induction m as [|[k0 v0] m IH]; simpl; [done|].
  destruct (decide (k0 = k)) as [->|Hk0]; simpl.
  - by rewrite decide_False.
  - by rewrite IH.
Qed.

Lemma jsmap_get_Some_elem k v m : jsmap_get k m = Some v → (k, v) ∈ m.
Proof.
  induction m as [|[k' v'] m IH]; simpl; [done|].
  destruct (decide (k' = k)) as [->|Hne].
  - intros [= ->]. left.
  - intros Hg. right. by apply IH.
Qed.

Lemma jsmap_keys_get k m : k ∈ jsmap_keys m ↔ is_Some (jsmap_get k m).
Proof.
  unfold jsmap_keys. induction m as [|[k' v'] m IH]; simpl.
  - split; [by intros ?%elem_of_nil | by intros [? ?]].
  - rewrite elem_of_cons, IH. destruct (decide (k' = k)) as [->|Hne].
    + split; eauto.
    + split; [intros [?|?]; [congruence|done] | by right].
Qed.

Lemma jsmap_get_None k m : jsmap_get k m = None ↔ k ∉ jsmap_keys m.
Proof. rewrite jsmap_keys_get, eq_None_not_Some. done. Qed.

Lemma jsmap_set_Forall (P : string * V → Prop) k v m :
  Forall P m → P (k, v) → Forall P (jsmap_set k v m).
Proof.
  intros Hm Hk. induction Hm as [|[k' v'] m Hx Hm IH]; simpl.
  - by constructor.
  - destruct (decide (k' = k)) as [->|Hne]; by constructor.
Qed.

Lemma jsmap_delete_Forall (P : string * V → Prop) k m :
  Forall P m → Forall P (jsmap_delete k m).
Proof.
  induction 1 as [|[k' v'] m Hx Hm IH]; simpl; [done|].
  destruct (decide (k' = k)); [done | by constructor].
Qed.

(** The number of entries stored under a key. *)
Lemma jsmap_set_fresh_count k v m :
  jsmap_get k m = None →
  length (filter (λ p, p.1 = k) (jsmap_set k v m)) = 1.
Proof.
  induction m as [|[k' v'] m IH]; simpl.
  - intros _. by rewrite filter_cons_True, filter_nil.
  - destruct (decide (k' = k)) as [->|Hne]; [done|]. intros Hg.
    rewrite filter_cons_False by done. by apply IH.
Qed.

Lemma jsmap_set_present_count k v m :
  is_Some (jsmap_get k m) →
  length (filter (λ p, p.1 = k) (jsmap_set k v m))
  = length (filter (λ p, p.1 = k) m).
Proof.
  induction m as [|[k' v'] m IH]; simpl; [by intros [? ?]|].
  destruct (decide (k' = k)) as [->|Hne]; intros Hg.
  - by rewrite !filter_cons_True.
  - rewrite !filter_cons_False by done. by apply IH.
Qed.
End JsMapFacts.

(** ** The monad and the transport's [broadcast] *)

Section MonadFacts.
Context {St Msg : Type}.
Implicit Types (s : St) (log : list (string * Msg)).

Lemma recipients_reliable connections without :
  recipients ∅ connections without
  = filter (λ c, c ∉ without) connections.
Proof.
  unfold recipients. apply list_filter_iff. intros c. split; [by intros [? _]|].
  intros Hc. split; [done|]. apply not_elem_of_empty.
Qed.

Lemma casualties_reliable connections without :
  casualties ∅ connections without = [].
Proof.
  unfold casualties. induction connections as [|c cs IH]; [done|].
  rewrite filter_cons_False; [done|]. intros [_ Hc]. by apply not_elem_of_empty in Hc.
Qed.

Lemma recipients_not_broken broken connections without c :
  c ∈ recipients broken connections without →
  c ∈ connections ∧ (c ∉ without) ∧ (c ∉ broken).
Proof. unfold recipients. by intros [[? ?] ?]%list_elem_of_filter. Qed.

Lemma casualties_broken broken connections without c :
  c ∈ casualties broken connections without →
  c ∈ connections ∧ (c ∉ without) ∧ (c ∈ broken).
Proof. unfold casualties. by intros [[? ?] ?]%list_elem_of_filter. Qed.

(** [broadcast] never throws: it hands the message to the working
    connections it is meant for and closes the others it is meant for,
    in the order of the list. *)
Lemma broadcast_run close broken connections (msg : Msg) without s log :
  broadcast (St:=St) close broken connections msg without s log
  = (Some tt,
     foldl (λ s c, close c s) s (casualties broken connections without),
     (log ++ map (λ c, (c, msg))
               (recipients broken connections without))%list).
Proof.
  unfold broadcast, recipients, casualties. revert s log.
  induction connections as [|c cs IH]; intros s log; simpl.
  - by rewrite app_nil_r.
  - unfold bind at 1. destruct (decide (c ∈ without)) as [Hw|Hw]; simpl.
    + rewrite !filter_cons_False by (by intros [? _]). apply IH.
    + unfold try_catch, send, modify.
      destruct (decide (c ∈ broken)) as [Hb|Hb]; simpl.
      * rewrite filter_cons_True by done.
        rewrite filter_cons_False by (by intros [_ ?]). simpl. apply IH.
      * rewrite filter_cons_False by (by intros [_ ?]).
        rewrite filter_cons_True by done. simpl.
        rewrite IH. by rewrite <- app_assoc.
Qed.

Lemma broadcast_reliable close connections (msg : Msg) without s log :
  broadcast (St:=St) close ∅ connections msg without s log
  = (Some tt, s, (log ++ map (λ c, (c, msg))
                        (filter (λ c, c ∉ without) connections))%list).
Proof.
  by rewrite broadcast_run, casualties_reliable, recipients_reliable.
Qed.
End MonadFacts.

(** ** Lists of connections *)

Lemma filter_all {A} (P : A → Prop) `{∀ x, Decision (P x)} (l : list A) :
  (∀ x, x ∈ l → P x) → filter P l = l.
Proof.
  induction l as [|x l IH]; intros Hl; [done|].
  rewrite filter_cons_True by (apply Hl; left).
  rewrite IH; [done|]. intros y Hy. apply Hl. by right.
Qed.

Lemma filter_ext_in {A} (P Q : A → Prop) `{∀ x, Decision (P x)}
    `{∀ x, Decision (Q x)} (l : list A) :
  (∀ x, x ∈ l → P x ↔ Q x) → filter P l = filter Q l.
Proof.
  induction l as [|x l IH]; intros Hl; [done|].
  assert (filter P l = filter Q l) as Hrec.
  { apply IH. intros y Hy. apply Hl. by right. }
  destruct (decide (P x)) as [Hp|Hp].
  - rewrite !filter_cons_True; [by f_equal|by apply (Hl x); [left|]|done].
  - rewrite !filter_cons_False; [done| |done].
    intros Hq. apply Hp. apply (Hl x); [left|done].
Qed.

(** The open connections after a connection has come and gone: [l] were
    open and [closed0] had been closed by the server before, the first
    [broadcast] went to all with [b1] failing, the second to all but
    [conn] with [b2] failing. *)
Lemma live_after_visit (conn : string) (l : list string)
    (closed0 b1 b2 : gset string) :
  let l0 := if decide (conn ∈ l) then l else (l ++ [conn])%list in
  let closed1 := closed0 ∖ {[conn]} ∪ list_to_set (casualties b1 l0 []) in
  let l1 := filter (λ c, c ≠ conn) (filter (λ c, c ∉ closed1) l0) in
  let closed2 := closed1 ∖ {[conn]} ∪ list_to_set (casualties b2 l1 [conn]) in
  filter (λ c, c ∉ closed2) l1
  = filter (λ c, (c ≠ conn) ∧ (c ∉ closed0) ∧ (c ∉ b1) ∧ (c ∉ b2)) l.
Proof.
  intros l0 closed1 l1 closed2.
  assert (∀ c, c ≠ conn → c ∈ l0 ↔ c ∈ l) as Hl0.
  { intros c Hc. subst l0. destruct (decide (conn ∈ l)); [done|].
    rewrite elem_of_app, list_elem_of_singleton. tauto. }
  assert (∀ c, c ≠ conn → c ∈ l → c ∈ closed1 ↔ c ∈ closed0 ∨ c ∈ b1) as Hc1.
  { intros c Hc Hin. subst closed1. unfold casualties.
    rewrite elem_of_union, elem_of_difference, elem_of_singleton,
      elem_of_list_to_set, list_elem_of_filter, Hl0 by done.
    split; [tauto|]. intros [?|?]; [tauto|]. right.
    split; [|done]. split; [|done]. by intros ?%elem_of_nil. }
  assert (∀ c, c ≠ conn → c ∈ l → c ∈ l1 ↔ c ∉ closed1) as Hl1.
  { intros c Hc Hin. subst l1.
    rewrite !list_elem_of_filter, Hl0 by done. tauto. }
  assert (∀ c, c ≠ conn → c ∈ l → c ∈ closed2 ↔ c ∈ closed1 ∨ c ∈ b2) as Hc2.
  { intros c Hc Hin. subst closed2. unfold casualties.
    rewrite elem_of_union, elem_of_difference, elem_of_singleton,
      elem_of_list_to_set, list_elem_of_filter, list_elem_of_singleton,
      Hl1 by done.
    destruct (decide (c ∈ closed1)); tauto. }
  subst l1. rewrite !list_filter_filter.
  assert (filter (λ c, ((c ∉ closed2) ∧ (c ≠ conn)) ∧ (c ∉ closed1)) l0
          = filter (λ c, ((c ∉ closed2) ∧ (c ≠ conn)) ∧ (c ∉ closed1)) l) as ->.
  { subst l0. destruct (decide (conn ∈ l)); [done|].
    rewrite filter_app, filter_cons_False by tauto.
    by rewrite filter_nil, app_nil_r. }
  apply filter_ext_in. intros c Hin.
  destruct (decide (c = conn)) as [->|Hc]; [tauto|].
  rewrite Hc2, Hc1 by done. tauto.
Qed.

(** ** The handlers, path by path *)

Section EngineFacts.
Context `{Runtime}.
Implicit Types (w : World) (log : list (string * Message)).

Lemma shut_nil w : shut [] w = w.
Proof.
  destruct w. unfold shut, set_closed; simpl. f_equal. apply (right_id_L ∅ (∪)).
Qed.

Lemma shut_foldl cs w :
  foldl (λ w c, set_closed (λ x, x ∪ {[c]}) w) w cs = shut cs w.
Proof.
  revert w. induction cs as [|c cs IH]; intros w; simpl.
  - by rewrite shut_nil.
  - rewrite IH. unfold shut, set_closed; simpl. f_equal.
    by rewrite (assoc_L (∪)).
Qed.

Lemma this_broadcast_run broken msg without w log :
  this_broadcast broken msg without w log
  = (Some tt, shut (casualties broken (live w) without) w,
     (log ++ map (λ c, (c, msg))
               (recipients broken (live w) without))%list).
Proof.
  unfold this_broadcast, mbind, M_bind, bind, gets.
  by rewrite broadcast_run, shut_foldl.
Qed.

Lemma this_broadcast_reliable msg without w log :
  this_broadcast ∅ msg without w log
  = (Some tt, w, (log ++ map (λ c, (c, msg))
                        (filter (λ c, c ∉ without) (live w)))%list).
Proof. unfold this_broadcast. apply broadcast_reliable. Qed.

Lemma has_position_false ctx :
  has_position ctx = false →
  negb (truthy (resolve_position ctx).1) || negb (truthy (resolve_position ctx).2)
  = true.
Proof.
  unfold has_position.
  by destruct (truthy (resolve_position ctx).1), (truthy (resolve_position ctx).2).
Qed.

Lemma has_position_true ctx :
  has_position ctx = true →
  negb (truthy (resolve_position ctx).1) || negb (truthy (resolve_position ctx).2)
  = false.
Proof.
  unfold has_position.
  by destruct (truthy (resolve_position ctx).1), (truthy (resolve_position ctx).2).
Qed.

(** Lines 40-48. *)
Lemma onConnect_rejected broken conn ctx w log :
  has_position ctx = false →
  onConnect broken conn ctx w log
  = if decide (conn ∈ broken) then (None, w, log)
    else (Some tt, set_closed (λ cs, cs ∪ {[conn]}) w,
          (log ++ [(conn, error "GPS position required to use this application")])%list).
Proof.
  intros Hp%has_position_false. unfold onConnect.
  destruct (resolve_position ctx) as [la lo]; simpl in Hp. rewrite Hp.
  unfold mbind, M_bind, bind, send. by destruct (decide (conn ∈ broken)).
Qed.

(** Lines 50-93: the first connection of an identity. *)
Lemma onConnect_created broken conn ctx w log :
  has_position ctx = true →
  jsmap_get (resolve_userId conn ctx) (debtors w) = None →
  let u := resolve_userId conn ctx in
  let w' := create u ctx (track u conn w) in
  onConnect broken conn ctx w log
  = this_broadcast broken
      (add_debtor (new_debtorInfo u (latitude_of ctx) (longitude_of ctx)
                     (entropy (rng w))))
      [] w' log.
Proof.
  intros Hp%has_position_true Hg u w'. subst u w'.
  unfold onConnect, create, track, latitude_of, longitude_of.
  destruct (resolve_position ctx) as [la lo]; simpl in *. rewrite Hp.
  unfold mbind, M_bind, bind, modify, gets, mret, M_ret, ret. simpl.
  case_bool_decide as Hs; simpl; rewrite Hg; simpl; [done|].
  apply eq_None_not_Some in Hs.
  unfold set_debtors, set_rng, set_userConnections, set_connState; simpl.
  by rewrite Hs, lookup_insert_eq, insert_insert_eq.
Qed.

Lemma snapshot_run broken userId conn ds w log :
  conn ∉ broken →
  for_each ds (λ '(otherUserId, otherDebtor),
    if decide (otherUserId ≠ userId)
    then send broken conn (add_debtor otherDebtor)
    else mret tt) w log
  = (Some tt, w, (log ++ snapshot userId conn ds)%list).
Proof.
  intros Hc. unfold snapshot. revert log.
  induction ds as [|[o d] ds IH]; intros log; simpl.
  - by rewrite app_nil_r.
  - unfold bind at 1. destruct (decide (o ≠ userId)) as [Hne|Heq].
    + rewrite filter_cons_True by done. unfold send at 1.
      rewrite decide_False by done. rewrite IH. simpl.
      by rewrite <- app_assoc.
    + rewrite filter_cons_False by done. simpl. apply IH.
Qed.

(** Lines 50-63 and 94-118: a further connection of a known identity. *)
Lemma onConnect_rejoined broken conn ctx w log d :
  has_position ctx = true →
  jsmap_get (resolve_userId conn ctx) (debtors w) = Some d →
  let u := resolve_userId conn ctx in
  let d' := update_position (latitude_of ctx) (longitude_of ctx) d in
  let w' := rejoin u ctx d (track u conn w) in
  onConnect broken conn ctx w log
  = if decide (conn ∈ broken) then (None, w', log)
    else (Some tt, w',
          (log ++ (conn, add_debtor d') :: snapshot u conn (debtors w'))%list).
Proof.
  intros Hp%has_position_true Hg u d' w'. subst u d' w'.
  unfold onConnect, rejoin, track, latitude_of, longitude_of.
  destruct (resolve_position ctx) as [la lo]; simpl in *. rewrite Hp.
  unfold mbind, M_bind, bind, modify, gets, mret, M_ret, ret. simpl.
  case_bool_decide as Hs; simpl; rewrite Hg; simpl; unfold send at 1;
    destruct (decide (conn ∈ broken)) as [Hb|Hb]; simpl.
  - done.
  - rewrite snapshot_run by done. by rewrite <- app_assoc.
  - apply eq_None_not_Some in Hs.
    unfold set_debtors, set_userConnections, set_connState; simpl.
    by rewrite Hs, lookup_insert_eq, insert_insert_eq.
  - rewrite snapshot_run by done.
    apply eq_None_not_Some in Hs.
    unfold set_debtors, set_userConnections, set_connState; simpl.
    rewrite Hs, lookup_insert_eq, insert_insert_eq. by rewrite <- app_assoc.
Qed.

(** Line 131. *)
Lemma handleDisconnect_stateless broken c w log :
  connState w !! c = None → handleDisconnect broken c w log = (Some tt, w, log).
Proof.
  intros Hs. unfold handleDisconnect, mbind, M_bind, bind, gets. by rewrite Hs.
Qed.

(** Line 137, the set is missing. *)
Lemma handleDisconnect_unregistered broken c st w log :
  connState w !! c = Some st →
  userConnections w !! userId st = None →
  handleDisconnect broken c w log = (Some tt, w, log).
Proof.
  intros Hs Hu. unfold handleDisconnect, mbind, M_bind, bind, gets.
  rewrite Hs. by rewrite Hu.
Qed.

(** Lines 138-141, other connections remain. *)
Lemma handleDisconnect_not_last broken c st S w log :
  connState w !! c = Some st →
  userConnections w !! userId st = Some S →
  S ∖ {[connectionId st]} ≠ ∅ →
  handleDisconnect broken c w log
  = (Some tt,
     set_userConnections <[userId st := S ∖ {[connectionId st]}]> w, log).
Proof.
  intros Hs Hu Hne. unfold handleDisconnect, mbind, M_bind, bind, gets, modify.
  rewrite Hs, Hu. rewrite decide_False; [done|].
  by intros ?%size_empty_inv%leibniz_equiv.
Qed.

(** Lines 138-153, the last connection of the identity. *)
Lemma handleDisconnect_last broken c st S w log :
  connState w !! c = Some st →
  userConnections w !! userId st = Some S →
  S ∖ {[connectionId st]} = ∅ →
  handleDisconnect broken c w log
  = this_broadcast broken (remove_debtor (userId st)) [connectionId st]
      (evict (userId st) w) log.
Proof.
  intros Hs Hu He. unfold handleDisconnect, mbind, M_bind, bind, gets, modify.
  rewrite Hs, Hu, He. rewrite decide_True by apply size_empty. simpl.
  unfold evict, set_debtors, set_userConnections; simpl.
  by rewrite delete_insert_eq.
Qed.

(** ** The handlers as functions of the starting state *)

Lemma onConnect_run broken conn ctx w log :
  ∃ r, onConnect broken conn ctx w log
       = (r, shut (connect_casualties broken conn ctx w)
               (connect_world broken conn ctx w),
          (log ++ connect_log broken conn ctx w)%list).
Proof.
  unfold connect_world, connect_log, connect_casualties.
  destruct (has_position ctx) eqn:Hp.
  - destruct (jsmap_get (resolve_userId conn ctx) (debtors w)) as [d|] eqn:Hg.
    + rewrite (onConnect_rejoined _ _ _ _ _ d), shut_nil by done.
      destruct (decide (conn ∈ broken)); [|by eexists].
      exists None. by rewrite app_nil_r.
    + rewrite onConnect_created, this_broadcast_run by done. by eexists.
  - rewrite onConnect_rejected, shut_nil by done.
    destruct (decide (conn ∈ broken)); [|by eexists].
    exists None. by rewrite app_nil_r.
Qed.

Lemma handleDisconnect_run broken c w log :
  handleDisconnect broken c w log
  = (Some tt, shut (disconnect_casualties broken c w) (disconnect_world c w),
     (log ++ disconnect_log broken c w)%list).
Proof.
  unfold disconnect_world, disconnect_log, disconnect_casualties.
  destruct (connState w !! c) as [st|] eqn:Hs.
  - destruct (userConnections w !! userId st) as [S|] eqn:Hu.
    + destruct (decide (S ∖ {[connectionId st]} = ∅)) as [He|Hne].
      * by rewrite (handleDisconnect_last _ _ st S), this_broadcast_run.
      * rewrite (handleDisconnect_not_last _ _ st S), shut_nil by done.
        by rewrite app_nil_r.
    + rewrite (handleDisconnect_unregistered _ _ st), shut_nil by done.
      by rewrite app_nil_r.
  - rewrite handleDisconnect_stateless, shut_nil by done.
    by rewrite app_nil_r.
Qed.

Lemma step_connect w conn ctx broken :
  step w (EvConnect conn ctx broken)
  = (sweep (shut (connect_casualties broken conn ctx (accept conn w))
              (connect_world broken conn ctx (accept conn w))),
     connect_log broken conn ctx (accept conn w)).
Proof.
  unfold step, exec.
  destruct (onConnect_run broken conn ctx (accept conn w) []) as [r Hr].
  by rewrite Hr.
Qed.

Lemma step_close w conn broken :
  step w (EvClose conn broken)
  = (sweep (shut (disconnect_casualties broken conn (forget conn w))
              (disconnect_world conn (forget conn w))),
     disconnect_log broken conn (forget conn w)).
Proof. unfold step, exec, onClose. by rewrite handleDisconnect_run. Qed.

Lemma step_error w conn broken :
  step w (EvError conn broken)
  = (sweep (shut (disconnect_casualties broken conn (forget conn w))
              (disconnect_world conn (forget conn w))),
     disconnect_log broken conn (forget conn w)).
Proof. unfold step, exec, onError. by rewrite handleDisconnect_run. Qed.

(** ** Store and registry stay in step *)

Lemma consistent_init : consistent init.
Proof.
  split.
  - intros u. simpl. rewrite lookup_empty. split; by intros [? ?].
  - intros u S. simpl. by rewrite lookup_empty.
Qed.

Lemma consistent_ext w w' :
  debtors w' = debtors w → userConnections w' = userConnections w →
  consistent w → consistent w'.
Proof. unfold consistent. by intros -> ->. Qed.

Lemma consistent_joined u conn (d : DebtorInfo) w w' :
  debtors w' = jsmap_set u d (debtors w) →
  userConnections w'
  = <[u := default ∅ (userConnections w !! u) ∪ {[conn]}]> (userConnections w) →
  consistent w → consistent w'.
Proof.
  intros Hd Hu [Hkeys Hne]. unfold consistent. rewrite Hd, Hu. split.
  - intros k. destruct (decide (u = k)) as [->|Hk].
    + rewrite jsmap_get_set_eq, lookup_insert_eq. split; eauto.
    + rewrite jsmap_get_set_ne, lookup_insert_ne by done. apply Hkeys.
  - intros k S. destruct (decide (u = k)) as [->|Hk].
    + rewrite lookup_insert_eq. intros [= <-] He.
      apply (not_elem_of_empty (C:=gset string) conn). rewrite <- He.
      apply elem_of_union_r. by apply elem_of_singleton.
    + rewrite lookup_insert_ne by done. apply Hne.
Qed.

Lemma consistent_connect broken conn ctx w :
  consistent w → consistent (connect_world broken conn ctx w).
Proof.
  intros Hw. unfold connect_world.
  destruct (has_position ctx).
  - destruct (jsmap_get (resolve_userId conn ctx) (debtors w)) as [d|].
    + by apply (consistent_joined (resolve_userId conn ctx) conn
                  (update_position (latitude_of ctx) (longitude_of ctx) d) w).
    + by apply (consistent_joined (resolve_userId conn ctx) conn
                  (new_debtorInfo (resolve_userId conn ctx) (latitude_of ctx)
                     (longitude_of ctx) (entropy (rng w))) w).
  - destruct (decide (conn ∈ broken)); [done|]. by eapply consistent_ext.
Qed.

Lemma consistent_disconnect c w :
  consistent w → consistent (disconnect_world c w).
Proof.
  intros [Hkeys Hne]. unfold disconnect_world.
  destruct (connState w !! c) as [st|]; [|done].
  destruct (userConnections w !! userId st) as [S|] eqn:Hu; [|done].
  destruct (decide (S ∖ {[connectionId st]} = ∅)) as [He|Hrest].
  - split; simpl.
    + intros k. destruct (decide (userId st = k)) as [<-|Hk].
      * rewrite jsmap_get_delete_eq, lookup_delete_eq. split; by intros [? ?].
      * rewrite jsmap_get_delete_ne, lookup_delete_ne by done. apply Hkeys.
    + intros k S'. destruct (decide (userId st = k)) as [<-|Hk].
      * by rewrite lookup_delete_eq.
      * rewrite lookup_delete_ne by done. apply Hne.
  - split; simpl.
    + intros k. destruct (decide (userId st = k)) as [<-|Hk].
      * rewrite lookup_insert_eq. rewrite Hkeys, Hu. split; eauto.
      * rewrite lookup_insert_ne by done. apply Hkeys.
    + intros k S'. destruct (decide (userId st = k)) as [<-|Hk].
      * rewrite lookup_insert_eq. by intros [= <-].
      * rewrite lookup_insert_ne by done. apply Hne.
Qed.

Lemma consistent_step w ev : consistent w → consistent (step w ev).1.
Proof.
  intros Hw. destruct ev as [conn ctx broken|conn broken|conn broken].
  - rewrite step_connect. simpl.
    eapply consistent_ext;
      [| |apply (consistent_connect broken conn ctx), (consistent_ext w)]; done.
  - rewrite step_close. simpl.
    eapply consistent_ext;
      [| |apply (consistent_disconnect conn), (consistent_ext w)]; done.
  - rewrite step_error. simpl.
    eapply consistent_ext;
      [| |apply (consistent_disconnect conn), (consistent_ext w)]; done.
Qed.

Lemma run_cons w ev evs :
  run w (ev :: evs)
  = ((run (step w ev).1 evs).1, ((step w ev).2 ++ (run (step w ev).1 evs).2)%list).
Proof.
  simpl. destruct (step w ev) as [w1 log1]. simpl.
  by destruct (run w1 evs) as [w2 log2].
Qed.

Lemma consistent_run evs w : consistent w → consistent (run w evs).1.
Proof.
  revert w. induction evs as [|ev evs IH]; intros w Hw; [done|].
  rewrite run_cons. simpl. by apply IH, consistent_step.
Qed.


(** ** Records are filed under their own id *)

Lemma resolve_userId_nonempty conn ctx : conn ≠ "" → resolve_userId conn ctx ≠ "".
Proof.
  intros Hc. unfold resolve_userId, js_or.
  destruct (searchParams_get "userId" ctx) as [s|]; [|done].
  by case_bool_decide.
Qed.

Lemma ids_match_connect broken conn ctx w :
  conn ≠ "" → ids_match w → ids_match (connect_world broken conn ctx w).
Proof.
  intros Hc Hw. unfold connect_world.
  destruct (has_position ctx).
  - destruct (jsmap_get (resolve_userId conn ctx) (debtors w)) as [d|] eqn:Hg.
    + apply jsmap_set_Forall; [done|]. simpl.
      apply jsmap_get_Some_elem in Hg.
      unfold ids_match in Hw. rewrite Forall_forall in Hw. apply (Hw _ Hg).
    + apply jsmap_set_Forall; [done|]. simpl.
      split; [done | by apply resolve_userId_nonempty].
  - by destruct (decide (conn ∈ broken)).
Qed.

Lemma ids_match_disconnect c w : ids_match w → ids_match (disconnect_world c w).
Proof.
  intros Hw. unfold disconnect_world.
  destruct (connState w !! c) as [st|]; [|done].
  destruct (userConnections w !! userId st) as [S|]; [|done].
  destruct (decide (S ∖ {[connectionId st]} = ∅)); [|done].
  by apply jsmap_delete_Forall.
Qed.

(** C6.  Each operation of the engine, that is the handling of one connect
    event (first connection of an identity, re-join, or rejection) or of
    one close or error event, keeps the invariant that every record of the
    store carries in [position.id] the key it is stored under and that this
    key is not the empty string, provided the connection of the event has a
    non-empty id (the id is the fallback identity of line 23). *)
Theorem step_preserves_ids (w : World) (ev : Event) :
  event_conn ev ≠ "" → ids_match w → ids_match (step w ev).1.
Proof.
  intros Hc Hw. destruct ev as [conn ctx broken|conn broken|conn broken].
  - rewrite step_connect. by apply ids_match_connect.
  - rewrite step_close. by apply (ids_match_disconnect conn).
  - rewrite step_error. by apply (ids_match_disconnect conn).
Qed.

(** ** Message types *)

Lemma connect_log_types broken conn ctx w :
  Forall (λ p, message_type p.2 = "add-debtor" ∨ message_type p.2 = "error")
         (connect_log broken conn ctx w).
Proof.
  unfold connect_log. destruct (has_position ctx).
  - destruct (jsmap_get (resolve_userId conn ctx) (debtors w)) as [d|].
    + destruct (decide (conn ∈ broken)); [done|].
      constructor; [by left|]. unfold snapshot.
      apply Forall_map, Forall_forall. intros; by left.
    + apply Forall_map, Forall_forall. intros; by left.
  - destruct (decide (conn ∈ broken)); [done|]. constructor; [by right|done].
Qed.

Lemma disconnect_log_types broken c w :
  Forall (λ p, message_type p.2 = "remove-debtor") (disconnect_log broken c w).
Proof.
  unfold disconnect_log.
  destruct (connState w !! c) as [st|]; [|done].
  destruct (userConnections w !! userId st) as [S|]; [|done].
  destruct (decide (S ∖ {[connectionId st]} = ∅)); [|done].
  apply Forall_map, Forall_forall. by intros.
Qed.

Lemma step_log_types w ev : Forall (λ p, emitted_type p.2) (step w ev).2.
Proof.
  destruct ev as [conn ctx broken|conn broken|conn broken].
  - rewrite step_connect. simpl.
    eapply Forall_impl; [apply connect_log_types|].
    intros [c m] [Hm|Hm]; simpl in *; (split; [by rewrite Hm|]); auto.
  - rewrite step_close. simpl.
    eapply Forall_impl; [apply disconnect_log_types|].
    intros [c m] Hm; simpl in *; (split; [by rewrite Hm|]); auto.
  - rewrite step_error. simpl.
    eapply Forall_impl; [apply disconnect_log_types|].
    intros [c m] Hm; simpl in *; (split; [by rewrite Hm|]); auto.
Qed.

(** C9.  Whatever the starting state and the sequence of connect, close
    and error events, no message handed to a connection has type
    update-debtor: each one is an add-debtor, a remove-debtor or an error.
    In particular the messages of a connect event, on the creation path
    and on the re-join path alike, are add-debtor messages (or the one
    error of a rejected connection). *)
Theorem never_emits_update (w : World) (evs : list Event) :
  Forall (λ p, emitted_type p.2) (run w evs).2
  ∧ ∀ conn ctx broken,
      Forall (λ p, message_type p.2 = "add-debtor" ∨ message_type p.2 = "error")
             (step w (EvConnect conn ctx broken)).2.
Proof.
  split.
  - revert w. induction evs as [|ev evs IH]; intros w; [done|].
    rewrite run_cons. simpl. apply Forall_app. split; [apply step_log_types|apply IH].
  - intros conn ctx broken. rewrite step_connect. apply connect_log_types.
Qed.

(** ** Re-joining *)

Lemma jsmap_keys_set_present {V} k (v : V) m :
  is_Some (jsmap_get k m) → jsmap_keys (jsmap_set k v m) = jsmap_keys m.
Proof.
  unfold jsmap_keys. induction m as [|[k' v'] m IH]; simpl; [by intros [? ?]|].
  destruct (decide (k' = k)) as [->|Hne]; [done|]. intros Hg. csimpl.
  f_equal. by apply IH.
Qed.

(** C7.  When a connection arrives with usable coordinates for an identity
    that already has a record, the record keeps its position id and every
    payload field; only [lat] and [lng] are replaced by the parsed
    coordinates.  No other record changes, none is added or dropped, the
    random generator is not read (no payload is generated), and every
    message of the event goes to the connection that just joined. *)
Theorem rejoin_updates_position_only (broken : gset string) (conn : string)
    (ctx : Request) (w : World) (d : DebtorInfo) :
  has_position ctx = true →
  jsmap_get (resolve_userId conn ctx) (debtors w) = Some d →
  let u := resolve_userId conn ctx in
  let w' := (onConnect broken conn ctx w []).1.2 in
  let log := (onConnect broken conn ctx w []).2 in
  (∃ d', jsmap_get u (debtors w') = Some d'
         ∧ lat (position d') = parseFloat (latitude_of ctx)
         ∧ lng (position d') = parseFloat (longitude_of ctx)
         ∧ id (position d') = id (position d)
         ∧ loanAmount d' = loanAmount d
         ∧ outstandingBalance d' = outstandingBalance d
         ∧ missedPayments d' = missedPayments d
         ∧ lastPaymentDate d' = lastPaymentDate d
         ∧ dueDate d' = dueDate d
         ∧ interestRate d' = interestRate d
         ∧ status d' = status d
         ∧ name d' = name d
         ∧ phoneNumber d' = phoneNumber d)
  ∧ (∀ u', u' ≠ u → jsmap_get u' (debtors w') = jsmap_get u' (debtors w))
  ∧ jsmap_keys (debtors w') = jsmap_keys (debtors w)
  ∧ rng w' = rng w
  ∧ Forall (λ p, p.1 = conn) log.
Proof.
  intros Hp Hg u w' log. subst u w' log.
  destruct (onConnect_run broken conn ctx w []) as [r ->]. simpl.
  unfold connect_world, connect_log. rewrite Hp, Hg. simpl.
  split; [|split; [|split; [|split]]].
  - eexists. split; [apply jsmap_get_set_eq|]. by repeat split.
  - intros u' Hu'. by apply jsmap_get_set_ne.
  - by apply jsmap_keys_set_present.
  - done.
  - destruct (decide (conn ∈ broken)); [done|].
    constructor; [done|]. unfold snapshot. apply Forall_map, Forall_forall.
    by intros.
Qed.

(** ** Disconnecting *)

Lemma handleDisconnect_settled broken c w log :
  settled c w → handleDisconnect broken c w log = (Some tt, w, log).
Proof.
  unfold settled.
  destruct (connState w !! c) as [st|] eqn:Hs;
    [|intros _; by apply handleDisconnect_stateless].
  destruct (userConnections w !! userId st) as [S|] eqn:Hu;
    [|intros _; by apply (handleDisconnect_unregistered _ _ st)].
  intros [Hc Hne].
  assert (S ∖ {[connectionId st]} = S) as HS
    by (by apply difference_disjoint_L, disjoint_singleton_r).
  rewrite (handleDisconnect_not_last _ _ st S) by (by rewrite ?HS).
  rewrite HS. f_equal. f_equal. destruct w. unfold set_userConnections. simpl in *.
  f_equal. by apply insert_id.
Qed.

Lemma settled_disconnect c w : settled c (disconnect_world c w).
Proof.
  unfold settled, disconnect_world.
  destruct (connState w !! c) as [st|] eqn:Hs; [|by rewrite Hs].
  destruct (userConnections w !! userId st) as [S|] eqn:Hu;
    [|by rewrite Hs, Hu].
  destruct (decide (S ∖ {[connectionId st]} = ∅)) as [He|Hne]; simpl; rewrite Hs.
  - by rewrite lookup_delete_eq.
  - rewrite lookup_insert_eq. split; [|done].
    apply not_elem_of_difference. right. by apply elem_of_singleton.
Qed.

Lemma settled_ext c w w' :
  connState w' = connState w → userConnections w' = userConnections w →
  settled c w → settled c w'.
Proof. unfold settled. by intros -> ->. Qed.

Lemma disconnect_settled broken c w :
  settled c w →
  shut (disconnect_casualties broken c w) (disconnect_world c w) = w
  ∧ disconnect_log broken c w = [].
Proof.
  intros Hs. pose proof (handleDisconnect_run broken c w []) as Hr.
  rewrite handleDisconnect_settled in Hr by done. by injection Hr as <- <-.
Qed.

Lemma World_eq w w' :
  debtors w = debtors w' → userConnections w = userConnections w' →
  connState w = connState w' → live w = live w' → closed w = closed w' →
  rng w = rng w' → w = w'.
Proof. destruct w, w'; simpl. by intros -> -> -> -> -> ->. Qed.

Lemma disconnect_casualties_live broken c w h :
  h ∈ disconnect_casualties broken c w → h ∈ live w.
Proof.
  unfold disconnect_casualties.
  destruct (connState w !! c) as [st|]; [|by intros ?%elem_of_nil].
  destruct (userConnections w !! userId st) as [S|]; [|by intros ?%elem_of_nil].
  destruct (decide (S ∖ {[connectionId st]} = ∅)); [|by intros ?%elem_of_nil].
  by intros [? _]%casualties_broken.
Qed.

Lemma sweep_forget_fixed c w :
  c ∉ live w → c ∉ closed w → (∀ h, h ∈ live w → h ∉ closed w) →
  sweep (forget c w) = w.
Proof.
  intros Hl Hc Hd.
  assert (closed w ∖ {[c]} = closed w) as Hcl
    by (by apply difference_disjoint_L, disjoint_singleton_r).
  assert (filter (λ h, h ≠ c) (live w) = live w) as Hlv.
  { apply filter_all. by intros h Hh ->. }
  apply World_eq; simpl; try done.
  rewrite Hcl, Hlv. by apply filter_all.
Qed.

(** A close event handled a second time finds nothing to do. *)
Lemma close_twice broken broken' c w :
  let w1 := sweep (shut (disconnect_casualties broken c (forget c w))
                     (disconnect_world c (forget c w))) in
  sweep (shut (disconnect_casualties broken' c (forget c w1))
           (disconnect_world c (forget c w1))) = w1
  ∧ disconnect_log broken' c (forget c w1) = [].
Proof.
  intros w1.
  assert (settled c (forget c w1)) as Hs.
  { eapply (settled_ext _ (disconnect_world c (forget c w)));
      [done|done|apply settled_disconnect]. }
  destruct (disconnect_settled broken' c (forget c w1) Hs) as [-> ->].
  split; [|done].
  assert (c ∉ live w1) as Hl.
  { subst w1. simpl. intros [_ Hc]%list_elem_of_filter.
    assert (live (disconnect_world c (forget c w)) = live (forget c w)) as Hlv.
    { unfold disconnect_world.
      destruct (connState (forget c w) !! c) as [st|]; [|done].
      destruct (userConnections (forget c w) !! userId st) as [S|]; [|done].
      by destruct (decide (S ∖ {[connectionId st]} = ∅)). }
    rewrite Hlv in Hc. simpl in Hc.
    by apply list_elem_of_filter in Hc as [? _]. }
  assert (c ∉ closed w1) as Hc.
  { subst w1. simpl.
    assert (closed (disconnect_world c (forget c w)) = closed w ∖ {[c]}) as Hcl.
    { unfold disconnect_world.
      destruct (connState (forget c w) !! c) as [st|]; [|done].
      destruct (userConnections (forget c w) !! userId st) as [S|]; [|done].
      by destruct (decide (S ∖ {[connectionId st]} = ∅)). }
    rewrite Hcl. intros [Hc|Hc]%elem_of_union.
    - apply elem_of_difference in Hc as [_ Hc]. by apply Hc, elem_of_singleton.
    - apply elem_of_list_to_set, disconnect_casualties_live in Hc.
      simpl in Hc. by apply list_elem_of_filter in Hc as [? _]. }
  apply sweep_forget_fixed; [done|done|].
  subst w1. simpl. by intros h [? _]%list_elem_of_filter.
Qed.

Lemma connect_world_connState broken conn ctx w :
  connState (connect_world broken conn ctx w)
  = if has_position ctx
    then <[conn := {| userId := resolve_userId conn ctx; connectionId := conn |}]>
           (connState w)
    else connState w.
Proof.
  unfold connect_world. destruct (has_position ctx).
  - by destruct (jsmap_get (resolve_userId conn ctx) (debtors w)).
  - by destruct (decide (conn ∈ broken)).
Qed.

(** C10.  [handleDisconnect] returns normally on every connection and is
    idempotent.  For a connection without state it changes nothing and
    sends nothing; a connection rejected for its missing position is such a
    connection, since [onConnect] sets the state exactly when the position
    is usable.  Run a second time on the same connection, whatever the
    first run did, it returns at once, leaves the whole state as the first
    run left it and sends nothing; so a close or error event handled twice
    has the effect of the event handled once. *)
Theorem disconnect_idempotent (broken broken' : gset string) (c : string)
    (ctx : Request) (w : World) (log : list (string * Message)) :
  handleDisconnect broken c (set_connState (delete c) w) log
  = (Some tt, set_connState (delete c) w, log)
  ∧ connState (step w (EvConnect c ctx broken)).1 !! c
    = (if has_position ctx
       then Some {| userId := resolve_userId c ctx; connectionId := c |}
       else None)
  ∧ handleDisconnect broken' c (handleDisconnect broken c w log).1.2
      (handleDisconnect broken c w log).2
    = (Some tt, (handleDisconnect broken c w log).1.2,
       (handleDisconnect broken c w log).2)
  ∧ step (step w (EvClose c broken)).1 (EvClose c broken')
    = ((step w (EvClose c broken)).1, [])
  ∧ step (step w (EvClose c broken)).1 (EvError c broken')
    = ((step w (EvClose c broken)).1, []).
Proof.
  split; [|split; [|split; [|split]]].
  - apply handleDisconnect_stateless. simpl. apply lookup_delete_eq.
  - rewrite step_connect. simpl. rewrite connect_world_connState.
    destruct (has_position ctx); simpl.
    + apply lookup_insert_eq.
    + apply lookup_delete_eq.
  - rewrite (handleDisconnect_run broken c w log). simpl.
    apply handleDisconnect_settled.
    eapply (settled_ext _ (disconnect_world c w));
      [done|done|apply settled_disconnect].
  - rewrite (step_close w), step_close. simpl fst.
    by destruct (close_twice broken broken' c w) as [-> ->].
  - rewrite (step_close w), step_error. simpl fst.
    by destruct (close_twice broken broken' c w) as [-> ->].
Qed.

Lemma filter_not_in_singleton (c : string) (l : list string) :
  filter (λ h, h ∉ [c]) l = filter (λ h, h ≠ c) l.
Proof.
  apply list_filter_iff. intros h. rewrite list_elem_of_singleton. done.
Qed.

Lemma filter_not_in_nil (l : list string) : filter (λ h, h ∉ []) l = l.
Proof.
  induction l as [|h l IH]; [done|].
  rewrite filter_cons_True by (by intros ?%elem_of_nil). by rewrite IH.
Qed.

(** C5.  Take a connection [c] whose state names identity [u], registered
    in the set of [u].  If [c] is not the only member of the set (the
    identity has two live connections, say), handling its disconnect sends
    nothing and changes nothing but that set: the record of [u] stays.  If
    [c] is the last member, the record and the set of [u] are removed and
    one remove-debtor message for [u] goes to every connection of
    [getConnections()] other than [c], and nothing else is sent. *)
Theorem disconnect_evicts_on_last_only (c u : string) (S : gset string)
    (w : World) :
  connState w !! c = Some {| userId := u; connectionId := c |} →
  userConnections w !! u = Some S →
  c ∈ S →
  let w' := (handleDisconnect ∅ c w []).1.2 in
  let log := (handleDisconnect ∅ c w []).2 in
  if decide (S = {[c]})
  then w' = evict u w
       ∧ jsmap_get u (debtors w') = None
       ∧ userConnections w' !! u = None
       ∧ log = map (λ h, (h, remove_debtor u)) (filter (λ h, h ≠ c) (live w))
  else w' = set_userConnections <[u := S ∖ {[c]}]> w
       ∧ debtors w' = debtors w
       ∧ log = [].
Proof.
  intros Hs Hu Hc w' log. subst w' log.
  destruct (decide (S = {[c]})) as [->|Hne].
  - rewrite (handleDisconnect_last _ _ _ {[c]} _ _ Hs Hu); simpl;
      [|apply difference_diag_L].
    rewrite this_broadcast_reliable. simpl.
    rewrite jsmap_get_delete_eq, lookup_delete_eq, filter_not_in_singleton.
    done.
  - rewrite (handleDisconnect_not_last _ _ _ S _ _ Hs Hu); simpl; [done|].
    intros He. apply Hne. apply set_eq. intros x. rewrite elem_of_singleton.
    split; [|by intros ->]. intros Hx. destruct (decide (x = c)); [done|].
    exfalso. apply (not_elem_of_empty (C:=gset string) x). rewrite <- He.
    apply elem_of_difference. split; [done|]. by rewrite elem_of_singleton.
Qed.

(** ** Two connections of one identity *)

Lemma inbox_app p log1 log2 :
  inbox p (log1 ++ log2) = (inbox p log1 ++ inbox p log2)%list.
Proof. unfold inbox. by rewrite filter_app, fmap_app. Qed.

Lemma inbox_broadcast p (m : Message) (l : list string) :
  inbox p (map (λ c, (c, m)) l) = map (λ _, m) (filter (λ c, c = p) l).
Proof.
  unfold inbox. induction l as [|c l IH]; [done|]. simpl.
  destruct (decide (c = p)) as [->|Hne].
  - rewrite !filter_cons_True by done. csimpl. by rewrite IH.
  - by rewrite !filter_cons_False by done.
Qed.

Lemma inbox_other p c log :
  p ≠ c → Forall (λ d : string * Message, d.1 = c) log → inbox p log = [].
Proof.
  intros Hne. unfold inbox. induction 1 as [|[c' m] log Hx Hl IH]; [done|].
  simpl in Hx. subst c'. by rewrite filter_cons_False by (simpl; congruence).
Qed.

Lemma filter_eq_NoDup (p : string) (l : list string) :
  NoDup l → p ∈ l → filter (λ c, c = p) l = [p].
Proof.
  induction 1 as [|c l Hc Hl IH]; [by intros ?%elem_of_nil|].
  intros Hp. destruct (decide (c = p)) as [->|Hne].
  - rewrite filter_cons_True by done. f_equal.
    apply elem_of_nil_inv. intros x [-> Hx]%list_elem_of_filter. done.
  - rewrite filter_cons_False by done. apply IH.
    apply elem_of_cons in Hp as [->|Hp]; done.
Qed.

Lemma accept_live_NoDup c w : NoDup (live w) → NoDup (live (accept c w)).
Proof.
  intros Hw. simpl. destruct (decide (c ∈ live w)); [done|].
  apply NoDup_app. split; [done|]. split; [|apply NoDup_singleton].
  intros x Hx ->%list_elem_of_singleton. done.
Qed.

Lemma accept_live_elem c p w : p ∈ live w → p ∈ live (accept c w).
Proof.
  intros Hp. simpl. destruct (decide (c ∈ live w)); [done|].
  apply elem_of_app. by left.
Qed.

(** C4.  Two connections [c1] and [c2] arrive one after the other, both
    with usable coordinates and both resolving to the same identity [u],
    which has no record before the first of them.  Afterwards the store
    holds exactly one entry for [u]: the record generated by the first
    connect (one payload generation in all), with the position of the
    second.  Each connection that was live before the first connect is
    handed exactly one add-debtor message over the two events, and the
    second connect sends to [c2] only. *)
Theorem same_identity_one_record (c1 c2 u : string) (ctx1 ctx2 : Request)
    (w : World) :
  NoDup (live w) →
  c2 ∉ live w →
  has_position ctx1 = true →
  has_position ctx2 = true →
  resolve_userId c1 ctx1 = u →
  resolve_userId c2 ctx2 = u →
  jsmap_get u (debtors w) = None →
  let s1 := step w (EvConnect c1 ctx1 ∅) in
  let s2 := step s1.1 (EvConnect c2 ctx2 ∅) in
  length (filter (λ p, p.1 = u) (debtors s2.1)) = 1
  ∧ jsmap_get u (debtors s2.1)
    = Some (update_position (latitude_of ctx2) (longitude_of ctx2)
              (new_debtorInfo u (latitude_of ctx1) (longitude_of ctx1)
                 (entropy (rng w))))
  ∧ rng s2.1 = rng w + draws_per_payload
  ∧ (∀ p, p ∈ live w →
       length (filter (λ m, is_add m) (inbox p (s1.2 ++ s2.2))) = 1)
  ∧ Forall (λ d, d.1 = c2) s2.2.
Proof.
  intros Hnd Hc2 Hp1 Hp2 Hu1 Hu2 Hfresh s1 s2. subst s1 s2.
  rewrite (step_connect w), step_connect. simpl fst. simpl snd.
  assert (connect_world ∅ c1 ctx1 (accept c1 w)
          = create u ctx1 (track u c1 (accept c1 w))) as Hw1.
  { unfold connect_world. rewrite Hp1, Hu1. simpl. by rewrite Hfresh. }
  assert (connect_log ∅ c1 ctx1 (accept c1 w)
          = map (λ c, (c, add_debtor (new_debtorInfo u (latitude_of ctx1)
                                        (longitude_of ctx1) (entropy (rng w)))))
                (live (accept c1 w))) as Hl1.
  { unfold connect_log. rewrite Hp1, Hu1. simpl. rewrite Hfresh.
    by rewrite recipients_reliable, filter_not_in_nil. }
  rewrite Hl1.
  set (d1 := new_debtorInfo u (latitude_of ctx1) (longitude_of ctx1)
               (entropy (rng w))).
  remember (accept c2
              (sweep (shut (connect_casualties ∅ c1 ctx1 (accept c1 w))
                        (connect_world ∅ c1 ctx1 (accept c1 w))))) as w1 eqn:Ew1.
  assert (debtors w1 = jsmap_set u d1 (debtors w)) as Hd1.
  { subst w1. simpl. by rewrite Hw1. }
  assert (rng w1 = rng w + draws_per_payload) as Hr1.
  { subst w1. simpl. by rewrite Hw1. }
  clear Ew1.
  assert (jsmap_get u (debtors w1) = Some d1) as Hg1.
  { rewrite Hd1. apply jsmap_get_set_eq. }
  assert (connect_world ∅ c2 ctx2 w1 = rejoin u ctx2 d1 (track u c2 w1)) as Hw2.
  { unfold connect_world. rewrite Hp2, Hu2. by rewrite Hg1. }
  assert (connect_log ∅ c2 ctx2 w1
          = (c2, add_debtor (update_position (latitude_of ctx2)
                               (longitude_of ctx2) d1))
            :: snapshot u c2 (debtors (rejoin u ctx2 d1 w1))) as Hl2.
  { unfold connect_log. rewrite Hp2, Hu2. rewrite Hg1.
    by rewrite decide_False by apply not_elem_of_empty. }
  rewrite Hw2, Hl2.
  assert (Forall (λ d : string * Message, d.1 = c2)
            ((c2, add_debtor (update_position (latitude_of ctx2)
                                (longitude_of ctx2) d1))
             :: snapshot u c2 (debtors (rejoin u ctx2 d1 w1)))) as Hto.
  { constructor; [done|]. unfold snapshot. apply Forall_map, Forall_forall.
    by intros. }
  split; [|split; [|split; [|split]]].
  - simpl. rewrite Hd1.
    rewrite jsmap_set_present_count by (rewrite jsmap_get_set_eq; eauto).
    by apply jsmap_set_fresh_count.
  - simpl. apply jsmap_get_set_eq.
  - simpl. apply Hr1.
  - intros p Hp. rewrite inbox_app.
    assert (p ≠ c2) as Hne by (by intros ->).
    rewrite (inbox_other p c2 _ Hne Hto).
    rewrite app_nil_r, inbox_broadcast.
    rewrite filter_eq_NoDup
      by (by apply accept_live_NoDup || by apply accept_live_elem).
    done.
  - done.
Qed.

(** ** A connection without coordinates *)

Lemma resolve_position_fallback ctx :
  truthy (searchParams_get "lat" ctx) && truthy (searchParams_get "lng" ctx)
  = false →
  resolve_position ctx = (cf ctx ≫= latitude, cf ctx ≫= longitude).
Proof. intros Hq. unfold resolve_position. by rewrite Hq. Qed.

(** C3, as the code has it.  When the query string lacks a usable [lat] or
    [lng], [onConnect] turns to the platform's [cf] object.  If that does
    not supply both coordinates either, the connection is handed exactly
    one error message and is closed, and nothing else changes: registry,
    store, connection states and generator are as before.  If [cf] supplies
    both, they are the coordinates used and the connection gets its state
    like any other. *)
Theorem missing_position_rejected (broken : gset string) (conn : string)
    (ctx : Request) (w : World) :
  conn ∉ broken →
  truthy (searchParams_get "lat" ctx) && truthy (searchParams_get "lng" ctx)
  = false →
  if truthy (cf ctx ≫= latitude) && truthy (cf ctx ≫= longitude)
  then resolve_position ctx = (cf ctx ≫= latitude, cf ctx ≫= longitude)
       ∧ connState (onConnect broken conn ctx w []).1.2 !! conn
         = Some {| userId := resolve_userId conn ctx; connectionId := conn |}
       ∧ Forall (λ p, message_type p.2 = "add-debtor")
                (onConnect broken conn ctx w []).2
  else onConnect broken conn ctx w []
       = (Some tt, set_closed (λ cs, cs ∪ {[conn]}) w,
          [(conn, error "GPS position required to use this application")]).
Proof.
  intros Hc Hq. pose proof (resolve_position_fallback ctx Hq) as Hr.
  destruct (truthy (cf ctx ≫= latitude) && truthy (cf ctx ≫= longitude))
    eqn:Hcf.
  - assert (has_position ctx = true) as Hp
      by (unfold has_position; by rewrite Hr).
    split; [done|].
    destruct (onConnect_run broken conn ctx w []) as [r ->]. simpl.
    rewrite connect_world_connState, Hp, lookup_insert_eq. split; [done|].
    unfold connect_log. rewrite Hp.
    destruct (jsmap_get (resolve_userId conn ctx) (debtors w)).
    + rewrite decide_False by done. constructor; [done|].
      unfold snapshot. apply Forall_map, Forall_forall. by intros.
    + apply Forall_map, Forall_forall. by intros.
  - assert (has_position ctx = false) as Hp
      by (unfold has_position; by rewrite Hr).
    rewrite onConnect_rejected by done. by rewrite decide_False by done.
Qed.

(** ** A first connection is told about itself only *)

(** C2, evaluated.  From the initial state, connection A arrives with
    identity u1 and then connection B with identity u2, no send failing.
    A is handed the record of u1.  On the connect of B, the record of u2
    is handed to A and to B; the record of u1, which is in the store, is
    not handed to B. *)
Theorem fresh_connect_gets_no_snapshot :
  let s1 := step init (EvConnect "A" (query "u1" "1" "1") ∅) in
  let s2 := step s1.1 (EvConnect "B" (query "u2" "2" "2") ∅) in
  let d1 := new_debtorInfo "u1" "1" "1" (entropy 0) in
  let d2 := new_debtorInfo "u2" "2" "2" (entropy 7) in
  s1.2 = [("A", add_debtor d1)]
  ∧ s2.2 = [("A", add_debtor d2); ("B", add_debtor d2)]
  ∧ debtors s2.1 = [("u1", d1); ("u2", d2)]
  ∧ inbox "B" (s1.2 ++ s2.2) = [add_debtor d2].
Proof.
  intros s1 s2 d1 d2. subst s1 s2 d1 d2.
  rewrite (step_connect init), step_connect. simpl fst. simpl snd.
  unfold connect_log, connect_world. 
  vm_compute. done.
Qed.

End EngineFacts.

Section EmitFacts.
Context {St Msg : Type}.
Implicit Types (P : string * Msg → Prop).

Lemma emits_ret {A} P (a : A) : emits (St:=St) P (ret a).
Proof. intros s log. exists []. by rewrite app_nil_r. Qed.

Lemma emits_throw {A} P : emits (St:=St) (A:=A) P throw.
Proof. intros s log. exists []. by rewrite app_nil_r. Qed.

Lemma emits_gets {A} P (f : St → A) : emits P (gets (Msg:=Msg) f).
Proof. intros s log. exists []. by rewrite app_nil_r. Qed.

Lemma emits_modify P (f : St → St) : emits P (modify (Msg:=Msg) f).
Proof. intros s log. exists []. by rewrite app_nil_r. Qed.

Lemma emits_send P broken to (msg : Msg) :
  P (to, msg) → emits (St:=St) P (send broken to msg).
Proof.
  intros Hp s log. unfold send. destruct (decide (to ∈ broken)).
  - exists []. by rewrite app_nil_r.
  - exists [(to, msg)]. split; [done | by constructor].
Qed.

Lemma emits_bind {A B} P (m : M St Msg A) (k : A → M St Msg B) :
  emits P m → (∀ a, emits P (k a)) → emits P (bind m k).
Proof.
  intros Hm Hk s log. unfold bind.
  destruct (Hm s log) as (out1 & H1 & HP1).
  destruct (m s log) as [[[a|] s1] log1]; simpl in H1; subst log1.
  - destruct (Hk a s1 (log ++ out1)%list) as (out2 & H2 & HP2).
    exists (out1 ++ out2)%list. rewrite H2, app_assoc. split; [done|].
    by apply Forall_app.
  - by exists out1.
Qed.

Lemma emits_try_catch P (body handler : M St Msg unit) :
  emits P body → emits P handler → emits P (try_catch body handler).
Proof.
  intros Hb Hh s log. unfold try_catch.
  destruct (Hb s log) as (out1 & H1 & HP1).
  destruct (body s log) as [[[a|] s1] log1]; simpl in H1; subst log1.
  - by exists out1.
  - destruct (Hh s1 (log ++ out1)%list) as (out2 & H2 & HP2).
    exists (out1 ++ out2)%list. rewrite H2, app_assoc. split; [done|].
    by apply Forall_app.
Qed.

Lemma emits_for_each {A} P (xs : list A) (body : A → M St Msg unit) :
  (∀ x, emits P (body x)) → emits P (for_each xs body).
Proof.
  intros Hb. induction xs as [|x xs IH]; simpl.
  - apply emits_ret.
  - apply emits_bind; [apply Hb | by intros _].
Qed.

Lemma emits_broadcast P close broken connections (msg : Msg) without :
  (∀ c, P (c, msg)) →
  emits (St:=St) P (broadcast close broken connections msg without).
Proof.
  intros Hp. unfold broadcast. apply emits_for_each. intros c.
  destruct (decide (c ∈ without)); [apply emits_ret|].
  apply emits_try_catch; [by apply emits_send | apply emits_modify].
Qed.
End EmitFacts.

Section FailureFacts.
Context `{Runtime}.

(** The loop of the second server: whatever fails, the only removal it
    announces is that of the connection being connected. *)
Lemma per_connection_onConnect_emits broken conn ctx :
  emits (λ p, ∀ i, p.2 = remove_debtor i → i = conn)
        (PerConnection.onConnect broken conn ctx).
Proof.
  unfold PerConnection.onConnect.
  destruct (resolve_position ctx) as [la lo].
  destruct (negb (truthy la) || negb (truthy lo)).
  - apply emits_bind; [by apply emits_send | intros _; apply emits_modify].
  - apply emits_bind; [apply emits_gets | intros k].
    apply emits_bind; [apply emits_modify | intros _].
    apply emits_bind; [apply emits_modify | intros _].
    apply emits_bind; [apply emits_gets | intros cs].
    apply emits_for_each. intros [cid st].
    apply emits_try_catch.
    + apply emits_bind.
      * destruct st; [by apply emits_send | apply emits_throw].
      * intros _. destruct (decide (cid ≠ conn));
          [by apply emits_send | apply emits_ret].
    + unfold PerConnection.onCloseOrError, PerConnection.this_broadcast.
      apply emits_bind; [apply emits_gets | intros cs'].
      apply emits_broadcast. by intros c i [= ->].
Qed.

(** C8.  The loop of the second server on a failing send.  A and B are
    connected, C connects, and every send to B throws.  The turn of A
    passes.  In the turn of B the send to B throws and the [catch] calls
    [onCloseOrError(conn)] with the connection being connected: A, which
    has just been told to add the record of C, is told to remove it,
    although C stays connected and goes on receiving the snapshot.  No
    message announces the removal of B; B is only closed by the
    transport, inside the [broadcast] of the [catch].  Whatever fails and
    whatever the state, every remove-debtor message the loop hands out
    names the connection being connected. *)
Theorem failed_send_evicts_newcomer :
  let r := PerConnection.onConnect {["B"]} "C" (query "x" "3" "3")
             three_connections [] in
  let dA := new_debtorInfo "A" "1" "1" (entropy 0) in
  let dB := new_debtorInfo "B" "2" "2" (entropy 7) in
  let dC := new_debtorInfo "C" "3" "3" (entropy 14) in
  r.1.1 = Some tt
  ∧ r.2 = [("C", add_debtor dA); ("A", add_debtor dC);
           ("C", add_debtor dB); ("A", remove_debtor "C");
           ("C", add_debtor dC)]
  ∧ PerConnection.closed r.1.2 = {["B"]}
  ∧ (∀ broken conn ctx lw,
       Forall (λ p, ∀ i, p.2 = remove_debtor i → i = conn)
              (PerConnection.onConnect broken conn ctx lw []).2).
Proof.
  intros r dA dB dC. subst r dA dB dC.
  split; [|split; [|split]].
  - vm_compute. reflexivity.
  - vm_compute. reflexivity.
  - vm_compute. reflexivity.
  - intros broken conn ctx lw.
    by destruct (per_connection_onConnect_emits broken conn ctx lw [])
      as (out & -> & Ho).
Qed.

End FailureFacts.

(** * The theorems at work on the sample states *)

Section Witnesses.
#[local] Existing Instance sample_runtime.

(** Z connects without coordinates and without a platform location while A
    and B are connected. *)
Lemma missing_position_rejected_witness :
  onConnect ∅ "Z" no_position two_users []
  = (Some tt, set_closed (λ cs, cs ∪ {["Z"]}) two_users,
     [("Z", error "GPS position required to use this application")]).
Proof.
  apply (missing_position_rejected ∅ "Z" no_position two_users);
    [apply not_elem_of_empty | reflexivity].
Defined.

(** C and D connect one after the other as the new identity u3 while A and
    B are connected. *)
Lemma same_identity_one_record_witness :
  let s1 := step two_users (EvConnect "C" (query "u3" "3" "3") ∅) in
  let s2 := step s1.1 (EvConnect "D" (query "u3" "4" "4") ∅) in
  length (filter (λ p, p.1 = "u3") (debtors s2.1)) = 1
  ∧ rng s2.1 = rng two_users + draws_per_payload
  ∧ length (filter (λ m, is_add m) (inbox "A" (s1.2 ++ s2.2))) = 1
  ∧ length (filter (λ m, is_add m) (inbox "B" (s1.2 ++ s2.2))) = 1.
Proof.
  assert (NoDup (live two_users)) as Hnd
    by (refine (bool_decide_unpack _ _); vm_compute; exact I).
  assert ("D" ∉ live two_users) as Hd
    by (refine (bool_decide_unpack _ _); vm_compute; exact I).
  assert ("A" ∈ live two_users) as Ha
    by (refine (bool_decide_unpack _ _); vm_compute; exact I).
  assert ("B" ∈ live two_users) as Hb
    by (refine (bool_decide_unpack _ _); vm_compute; exact I).
  assert (jsmap_get "u3" (debtors two_users) = None) as Hfresh
    by (vm_compute; reflexivity).
  destruct (same_identity_one_record "C" "D" "u3" (query "u3" "3" "3")
              (query "u3" "4" "4") two_users Hnd Hd eq_refl eq_refl eq_refl
              eq_refl Hfresh) as (Hone & _ & Hrng & Hpeers & _).
  cbv zeta.
  split; [exact Hone|]. split; [exact Hrng|].
  split; [exact (Hpeers "A" Ha) | exact (Hpeers "B" Hb)].
Defined.

(** With B and C both connected as u2: closing C is silent, closing A, the
    only connection of u1, is announced to B and C. *)
Lemma disconnect_evicts_on_last_only_witness :
  (handleDisconnect ∅ "C" two_tabs []).2 = []
  ∧ debtors (handleDisconnect ∅ "C" two_tabs []).1.2 = debtors two_tabs
  ∧ (handleDisconnect ∅ "A" two_tabs []).2
    = [("B", remove_debtor "u1"); ("C", remove_debtor "u1")]
  ∧ jsmap_get "u1" (debtors (handleDisconnect ∅ "A" two_tabs []).1.2) = None.
Proof.
  assert (connState two_tabs !! "C"
          = Some {| userId := "u2"; connectionId := "C" |}) as HC
    by (vm_compute; reflexivity).
  assert (userConnections two_tabs !! "u2" = Some {["B"; "C"]}) as HS
    by (vm_compute; reflexivity).
  assert ("C" ∈ ({["B"; "C"]} : gset string)) as HinC
    by (refine (bool_decide_unpack _ _); vm_compute; exact I).
  assert (connState two_tabs !! "A"
          = Some {| userId := "u1"; connectionId := "A" |}) as HA
    by (vm_compute; reflexivity).
  assert (userConnections two_tabs !! "u1" = Some {["A"]}) as HS1
    by (vm_compute; reflexivity).
  assert ("A" ∈ ({["A"]} : gset string)) as HinA
    by (refine (bool_decide_unpack _ _); vm_compute; exact I).
  pose proof (disconnect_evicts_on_last_only "C" "u2" {["B"; "C"]} two_tabs
                HC HS HinC) as Hnot_last.
  pose proof (disconnect_evicts_on_last_only "A" "u1" {["A"]} two_tabs
                HA HS1 HinA) as Hlast.
  cbv zeta in Hnot_last, Hlast.
  destruct (decide (({["B"; "C"]} : gset string) = {["C"]})) as [Heq|_] in Hnot_last.
  { exfalso. refine (bool_decide_eq_false_1 _ _ Heq). vm_compute. reflexivity. }
  destruct (decide (({["A"]} : gset string) = {["A"]})) as [_|Hne] in Hlast;
    [|done].
  destruct Hnot_last as (_ & Hkeep & Hquiet).
  destruct Hlast as (_ & Hgone & _ & Hsent).
  split; [exact Hquiet|]. split; [exact Hkeep|]. split; [|exact Hgone].
  rewrite Hsent. vm_compute. reflexivity.
Defined.

(** C joins as a second connection of u2. *)
Lemma step_preserves_ids_witness :
  ids_match (step two_users (EvConnect "C" (query "u2" "9" "9") ∅)).1.
Proof.
  apply (step_preserves_ids two_users (EvConnect "C" (query "u2" "9" "9") ∅)).
  - simpl. discriminate.
  - unfold ids_match. vm_compute. repeat constructor; discriminate.
Defined.

(** C joins as a second connection of u2 with new coordinates. *)
Lemma rejoin_updates_position_only_witness :
  jsmap_get "u2" (debtors (onConnect ∅ "C" (query "u2" "9" "9") two_users []).1.2)
  = Some (update_position "9" "9" (new_debtorInfo "u2" "2" "2" (entropy 7)))
  ∧ rng (onConnect ∅ "C" (query "u2" "9" "9") two_users []).1.2 = rng two_users
  ∧ Forall (λ p, p.1 = "C") (onConnect ∅ "C" (query "u2" "9" "9") two_users []).2.
Proof.
  assert (jsmap_get (resolve_userId "C" (query "u2" "9" "9")) (debtors two_users)
          = Some (new_debtorInfo "u2" "2" "2" (entropy 7))) as Hg
    by (vm_compute; reflexivity).
  destruct (rejoin_updates_position_only ∅ "C" (query "u2" "9" "9") two_users
              (new_debtorInfo "u2" "2" "2" (entropy 7)) eq_refl Hg)
    as (_ & _ & _ & Hrng & Hto).
  split; [vm_compute; reflexivity | split; [exact Hrng | exact Hto]].
Defined.

End Witnesses.

(** * Where the code departs from the stated behaviour *)

Section Counterexamples.

(** Against C3: the request carries neither [lat] nor [lng], the platform
    supplies a location, and the connection is taken in: it is handed the
    new record instead of an error, the registry and the store change, and
    the connection is not closed. *)
Lemma platform_location_is_used :
  let H := text_runtime in
  let s := step init (EvConnect "A" located_by_platform ∅) in
  searchParams_get "lat" located_by_platform = None
  ∧ searchParams_get "lng" located_by_platform = None
  ∧ s.2 = [("A", add_debtor (new_debtorInfo "u1" "11.56" "104.92" (entropy 0)))]
  ∧ s.2 ≠ [("A", error "GPS position required to use this application")]
  ∧ userConnections s.1 !! "u1" = Some {["A"]}
  ∧ userConnections s.1 ≠ userConnections init
  ∧ jsmap_keys (debtors s.1) = ["u1"]
  ∧ debtors s.1 ≠ debtors init
  ∧ "A" ∉ closed s.1.
Proof.
  intros H s.
  split; [reflexivity|]. split; [reflexivity|].
  split; [vm_compute; reflexivity|]. split; [vm_compute; discriminate|].
  assert (userConnections s.1 !! "u1" = Some {["A"]}) as Hu
    by (vm_compute; reflexivity).
  split; [exact Hu|].
  split; [intros Heq; rewrite Heq in Hu; discriminate Hu|].
  split; [vm_compute; reflexivity|]. split; [vm_compute; discriminate|].
  refine (bool_decide_unpack _ _). vm_compute. exact I.
Qed.

End Counterexamples.

(** * Further properties of the handlers *)

Section Composition.
Context `{Runtime}.
Implicit Types (w : World) (log : list (string * Message)).

Lemma jsmap_delete_set_fresh {V} k (v : V) m :
  jsmap_get k m = None → jsmap_delete k (jsmap_set k v m) = m.
Proof.
  induction m as [|[k' v'] m IH]; simpl.
  - intros _. by rewrite decide_True.
  - destruct (decide (k' = k)) as [->|Hne]; [done|]. intros Hg. simpl.
    rewrite decide_False by done. by rewrite IH.
Qed.

Lemma truthy_default v : truthy v = true → Some (default "" v) = v.
Proof. by destruct v. Qed.

Lemma connect_world_live broken conn ctx w :
  has_position ctx = true →
  let u := resolve_userId conn ctx in
  let w' := connect_world broken conn ctx w in
  userConnections w'
  = <[u := default ∅ (userConnections w !! u) ∪ {[conn]}]> (userConnections w)
  ∧ connState w'
    = <[conn := {| userId := u; connectionId := conn |}]> (connState w)
  ∧ live w' = live w ∧ closed w' = closed w
  ∧ debtors w'
    = jsmap_set u
        (match jsmap_get u (debtors w) with
         | Some d => update_position (latitude_of ctx) (longitude_of ctx) d
         | None => new_debtorInfo u (latitude_of ctx) (longitude_of ctx)
                     (entropy (rng w))
         end) (debtors w).
Proof.
  intros Hp u w'. subst u w'. unfold connect_world. rewrite Hp.
  by destruct (jsmap_get (resolve_userId conn ctx) (debtors w)).
Qed.

(** X1.  A connect with a usable position, whatever sends fail, leaves the
    identity registered with the connection and stored with the parsed
    coordinates: the coordinates of the query string when it has both, and
    otherwise those of the platform, even if the query string has one of
    the two.  The record is filed under the identity; a record that was
    there keeps its position id. *)
Theorem connect_then_lookup (broken : gset string) (conn : string)
    (ctx : Request) (w : World) :
  has_position ctx = true →
  let u := resolve_userId conn ctx in
  let w' := (step w (EvConnect conn ctx broken)).1 in
  (∃ d, jsmap_get u (debtors w') = Some d
        ∧ lat (position d) = parseFloat (latitude_of ctx)
        ∧ lng (position d) = parseFloat (longitude_of ctx)
        ∧ id (position d)
          = match jsmap_get u (debtors w) with
            | Some old => id (position old)
            | None => u
            end)
  ∧ (∃ conns, userConnections w' !! u = Some conns ∧ conn ∈ conns)
  ∧ connState w' !! conn = Some {| userId := u; connectionId := conn |}
  ∧ (Some (latitude_of ctx), Some (longitude_of ctx))
    = (if truthy (searchParams_get "lat" ctx)
          && truthy (searchParams_get "lng" ctx)
       then (searchParams_get "lat" ctx, searchParams_get "lng" ctx)
       else (cf ctx ≫= latitude, cf ctx ≫= longitude)).
Proof.
  intros Hp u w'. subst u w'. rewrite step_connect. simpl fst.
  cbn [debtors userConnections connState sweep shut set_live set_closed].
  destruct (connect_world_live broken conn ctx (accept conn w) Hp)
    as (Huc & Hcs & _ & _ & Hd).
  split; [|split; [|split]].
  - rewrite Hd. eexists. split; [apply jsmap_get_set_eq|]. simpl.
    by destruct (jsmap_get (resolve_userId conn ctx) (debtors w)).
  - rewrite Huc. eexists. split; [apply lookup_insert_eq|].
    apply elem_of_union_r. by apply elem_of_singleton.
  - rewrite Hcs. apply lookup_insert_eq.
  - unfold has_position, latitude_of, longitude_of, resolve_position in *.
    destruct (truthy (searchParams_get "lat" ctx)
              && truthy (searchParams_get "lng" ctx)); simpl in *;
      apply andb_prop in Hp as [Hla Hlo];
      by rewrite (truthy_default _ Hla), (truthy_default _ Hlo).
Qed.

(** X2.  The first connection of an identity that is neither stored nor
    registered, followed by the close of that connection, gives back the
    store and the registry as they were, whatever sends fail on the way.
    The open connections are then the old ones without the handle, without
    those the server had closed before and without those on which a send
    of one of the two [broadcast]s failed; the close is announced to the
    others only. *)
Theorem connect_close_restores (b1 b2 : gset string) (conn : string)
    (ctx : Request) (w : World) :
  has_position ctx = true →
  jsmap_get (resolve_userId conn ctx) (debtors w) = None →
  userConnections w !! resolve_userId conn ctx = None →
  let s1 := step w (EvConnect conn ctx b1) in
  let s2 := step s1.1 (EvClose conn b2) in
  debtors s2.1 = debtors w
  ∧ userConnections s2.1 = userConnections w
  ∧ live s2.1
    = filter (λ c, (c ≠ conn) ∧ (c ∉ closed w) ∧ (c ∉ b1) ∧ (c ∉ b2)) (live w)
  ∧ Forall (λ p, p.2 = remove_debtor (resolve_userId conn ctx) ∧ p.1 ≠ conn)
           s2.2.
Proof.
  intros Hp Hfresh Hreg s1 s2. subst s1 s2.
  rewrite (step_connect w), step_close. simpl fst. simpl snd.
  set (u := resolve_userId conn ctx) in *.
  destruct (connect_world_live b1 conn ctx (accept conn w) Hp)
    as (Huc & Hcs & Hlive & Hclosed & Hd).
  fold u in Huc, Hcs, Hd. simpl in Huc, Hcs, Hd, Hlive, Hclosed.
  rewrite Hfresh, Hreg in *. simpl in Huc.
  assert (connect_casualties b1 conn ctx (accept conn w)
          = casualties b1 (live (accept conn w)) []) as Hcas1.
  { unfold connect_casualties. rewrite Hp. fold u. simpl. by rewrite Hfresh. }
  rewrite Hcas1.
  remember (connect_world b1 conn ctx (accept conn w)) as w1 eqn:Ew1.
  remember (forget conn (sweep (shut (casualties b1 (live (accept conn w)) [])
                                  w1))) as w2 eqn:Ew2.
  assert (connState w2 !! conn = Some {| userId := u; connectionId := conn |})
    as Hst by (subst w2; simpl; rewrite Hcs; apply lookup_insert_eq).
  assert (userConnections w2 = userConnections w1) as Huc2 by (by subst w2).
  assert (userConnections w2 !! u = Some (∅ ∪ {[conn]})) as Hset
    by (rewrite Huc2, Huc; apply lookup_insert_eq).
  assert ((∅ ∪ {[conn]}) ∖ {[conn]} = (∅ : gset string)) as Hlast
    by (rewrite union_empty_l_L; apply difference_diag_L).
  unfold disconnect_world, disconnect_log, disconnect_casualties.
  rewrite Hst. simpl. rewrite Hset. simpl.
  destruct (decide ((∅ ∪ {[conn]}) ∖ {[conn]} = (∅ : gset string)))
    as [_|Hn]; [|done].
  split; [|split; [|split]].
  - simpl. subst w2. simpl. rewrite Hd. by apply jsmap_delete_set_fresh.
  - simpl. rewrite Huc2, Huc, delete_insert_eq. by apply delete_id.
  - simpl. subst w2. simpl. rewrite Hlive, Hclosed.
    apply (live_after_visit conn (live w) (closed w) b1 b2).
  - apply Forall_map, Forall_forall. intros c Hc. simpl. split; [done|].
    apply recipients_not_broken in Hc as (_ & Hc & _).
    intros ->. apply Hc. left.
Qed.

(** X3.  A further connection of an identity that is stored and registered
    (a second tab), followed by its close, leaves the registry as it was
    and is not noticed by anyone else: the messages of the connect all go
    to the new connection, the close sends nothing.  The store keeps its
    keys in order; only the position of that identity has moved. *)
Theorem second_tab_passes_unnoticed (b1 b2 : gset string) (conn : string)
    (ctx : Request) (w : World) (d : DebtorInfo) (conns : gset string) :
  has_position ctx = true →
  jsmap_get (resolve_userId conn ctx) (debtors w) = Some d →
  userConnections w !! resolve_userId conn ctx = Some conns →
  conn ∉ conns →
  conns ≠ ∅ →
  let s1 := step w (EvConnect conn ctx b1) in
  let s2 := step s1.1 (EvClose conn b2) in
  userConnections s2.1 = userConnections w
  ∧ jsmap_keys (debtors s2.1) = jsmap_keys (debtors w)
  ∧ debtors s2.1
    = jsmap_set (resolve_userId conn ctx)
        (update_position (latitude_of ctx) (longitude_of ctx) d) (debtors w)
  ∧ Forall (λ p, p.1 = conn) s1.2
  ∧ s2.2 = [].
Proof.
  intros Hp Hg Hreg Hc Hne s1 s2. subst s1 s2.
  rewrite (step_connect w), step_close. simpl fst. simpl snd.
  set (u := resolve_userId conn ctx) in *.
  destruct (connect_world_live b1 conn ctx (accept conn w) Hp)
    as (Huc & Hcs & Hlive & _ & Hd).
  fold u in Huc, Hcs, Hd. simpl in Huc, Hcs, Hd, Hlive.
  rewrite Hg, Hreg in *. simpl in Huc.
  remember (connect_world b1 conn ctx (accept conn w)) as w1 eqn:Ew1.
  remember (forget conn (sweep (shut (connect_casualties b1 conn ctx
                                        (accept conn w)) w1))) as w2 eqn:Ew2.
  assert (connState w2 !! conn = Some {| userId := u; connectionId := conn |})
    as Hst by (subst w2; simpl; rewrite Hcs; apply lookup_insert_eq).
  assert (userConnections w2 = userConnections w1) as Huc2 by (by subst w2).
  assert (debtors w2 = debtors w1) as Hd2 by (by subst w2).
  assert (userConnections w2 !! u = Some (conns ∪ {[conn]})) as Hset
    by (rewrite Huc2, Huc; apply lookup_insert_eq).
  assert ((conns ∪ {[conn]}) ∖ {[conn]} = conns) as Hrest.
  { rewrite difference_union_distr_l_L, difference_diag_L, union_empty_r_L.
    by apply difference_disjoint_L, disjoint_singleton_r. }
  unfold disconnect_world, disconnect_log. rewrite Hst. simpl.
  rewrite Hset. simpl. rewrite Hrest.
  destruct (decide (conns = ∅)) as [He|_]; [done|].
  split; [|split; [|split; [|split]]].
  - simpl. rewrite Huc2, Huc, insert_insert_eq. by apply insert_id.
  - simpl. rewrite Hd2, Hd. apply jsmap_keys_set_present. by rewrite Hg.
  - simpl. by rewrite Hd2, Hd.
  - unfold connect_log. rewrite Hp. fold u. simpl. rewrite Hg.
    destruct (decide (conn ∈ b1)); [done|]. constructor; [done|].
    unfold snapshot. apply Forall_map, Forall_forall. by intros.
  - done.
Qed.

Lemma step_frame w ev u' :
  event_identity w ev ≠ Some u' →
  jsmap_get u' (debtors (step w ev).1) = jsmap_get u' (debtors w)
  ∧ userConnections (step w ev).1 !! u' = userConnections w !! u'.
Proof.
  assert (∀ c w, jsmap_get u' (debtors (disconnect_world c w))
                 = jsmap_get u' (debtors w)
                 ∨ userId <$> connState w !! c = Some u') as Hd.
  { clear w. intros c w. unfold disconnect_world.
    destruct (connState w !! c) as [st|]; [|by left].
    destruct (userConnections w !! userId st) as [S|]; [|by left].
    destruct (decide (S ∖ {[connectionId st]} = ∅)); [|by left].
    destruct (decide (userId st = u')) as [Heq|Hne];
      [right; simpl; by rewrite Heq | left].
    by apply jsmap_get_delete_ne. }
  assert (∀ c w, userConnections (disconnect_world c w) !! u'
                 = userConnections w !! u'
                 ∨ userId <$> connState w !! c = Some u') as Hu.
  { clear w. intros c w. unfold disconnect_world.
    destruct (connState w !! c) as [st|]; [|by left].
    destruct (userConnections w !! userId st) as [S|]; [|by left].
    destruct (decide (userId st = u')) as [Heq|Hne];
      [right; simpl; by rewrite Heq | left].
    destruct (decide (S ∖ {[connectionId st]} = ∅)); simpl.
    - by apply lookup_delete_ne.
    - by apply lookup_insert_ne. }
  destruct ev as [conn ctx b|conn b|conn b]; simpl event_identity; intros Hid.
  - rewrite step_connect. simpl fst.
    cbn [debtors userConnections sweep shut set_live set_closed].
    destruct (has_position ctx) eqn:Hp.
    + destruct (connect_world_live b conn ctx (accept conn w) Hp)
        as (-> & _ & _ & _ & ->).
      assert (resolve_userId conn ctx ≠ u') by congruence.
      by rewrite jsmap_get_set_ne, lookup_insert_ne.
    + unfold connect_world. rewrite Hp. by destruct (decide (conn ∈ b)).
  - rewrite step_close. simpl fst.
    cbn [debtors userConnections sweep shut set_live set_closed].
    destruct (Hd conn (forget conn w)), (Hu conn (forget conn w)); done.
  - rewrite step_error. simpl fst.
    cbn [debtors userConnections sweep shut set_live set_closed].
    destruct (Hd conn (forget conn w)), (Hu conn (forget conn w)); done.
Qed.

(** X4.  An event touches the record and the registry entry of one
    identity at most: the identity the connection resolves to, for a
    connect with a usable position; the identity in the state of the
    connection, for a close or an error.  Every other identity keeps its
    record and its set of connections, whatever sends fail. *)
Theorem event_touches_own_identity (w : World) (ev : Event) (u' : string) :
  event_identity w ev ≠ Some u' →
  jsmap_get u' (debtors (step w ev).1) = jsmap_get u' (debtors w)
  ∧ userConnections (step w ev).1 !! u' = userConnections w !! u'.
Proof. apply step_frame. Qed.

(** ** The registry mirrors the states of the live connections *)

Lemma mirrored_init : mirrored init.
Proof.
  split; [|split]; simpl.
  - intros c st. by rewrite lookup_empty.
  - intros u S c. by rewrite lookup_empty.
  - intros c st [Hc|Hc]; [by apply elem_of_nil in Hc|].
    by apply not_elem_of_empty in Hc.
Qed.

Lemma mirrored_rejected conn w w' :
  ¬ known w conn → mirrored w →
  userConnections w' = userConnections w →
  connState w' = delete conn (connState w) →
  (∀ c, known w' c ↔ known w c ∨ c = conn) →
  mirrored w'.
Proof.
  intros Hfresh (Hid & Hreg & Hlive) Hu Hc Hl. unfold mirrored.
  rewrite Hu, Hc. split; [|split].
  - intros c st [_ Hst]%lookup_delete_Some. by apply Hid.
  - intros u S c HS Hin. destruct (Hreg u S c HS Hin) as [Hcl Hst].
    split; [apply Hl; by left|].
    rewrite lookup_delete_ne; [done|]. by intros ->.
  - intros c st Hin [Hne Hst]%lookup_delete_Some.
    apply (Hlive c st); [|done].
    apply Hl in Hin as [?|Hin]; [done|]. by subst c.
Qed.

Lemma mirrored_connected u conn w w' :
  ¬ known w conn → mirrored w →
  userConnections w'
  = <[u := default ∅ (userConnections w !! u) ∪ {[conn]}]> (userConnections w) →
  connState w'
  = <[conn := {| userId := u; connectionId := conn |}]>
      (delete conn (connState w)) →
  (∀ c, known w' c ↔ known w c ∨ c = conn) →
  mirrored w'.
Proof.
  intros Hfresh (Hid & Hreg & Hlive) Hu Hc Hl. unfold mirrored.
  rewrite Hu, Hc. split; [|split].
  - intros c st. destruct (decide (conn = c)) as [->|Hne].
    + rewrite lookup_insert_eq. by intros [= <-].
    + rewrite lookup_insert_ne by done.
      intros [_ Hst]%lookup_delete_Some. by apply Hid.
  - intros u1 S1 c HS Hin.
    assert (∀ S, userConnections w !! u1 = Some S → c ∈ S →
              known w' c
              ∧ <[conn := {| userId := u; connectionId := conn |}]>
                  (delete conn (connState w)) !! c
                = Some {| userId := u1; connectionId := c |}) as Hold.
    { intros S HS' Hin'. destruct (Hreg u1 S c HS' Hin') as [Hcl Hst].
      split; [apply Hl; by left|].
      assert (conn ≠ c) by (by intros ->).
      by rewrite lookup_insert_ne, lookup_delete_ne. }
    destruct (decide (u = u1)) as [->|Hne].
    + rewrite lookup_insert_eq in HS. injection HS as <-.
      apply elem_of_union in Hin as [Hin|Hin].
      * destruct (userConnections w !! u1) as [S|] eqn:HS;
          [by apply (Hold S) | by apply not_elem_of_empty in Hin].
      * apply elem_of_singleton in Hin as ->.
        split; [apply Hl; by right|].
        apply lookup_insert_eq.
    + rewrite lookup_insert_ne in HS by done. by apply (Hold S1).
  - intros c st Hin. destruct (decide (conn = c)) as [->|Hne].
    + rewrite lookup_insert_eq. intros [= <-]. simpl.
      rewrite lookup_insert_eq. eexists. split; [done|].
      apply elem_of_union_r. by apply elem_of_singleton.
    + rewrite lookup_insert_ne by done. intros [_ Hst]%lookup_delete_Some.
      destruct (Hlive c st) as (S & HS & HinS); [|done|].
      { apply Hl in Hin as [?|Hin]; [done|]. by subst c. }
      destruct (decide (u = userId st)) as [->|Hu'].
      * rewrite lookup_insert_eq, HS. eexists. split; [done|].
        by apply elem_of_union_l.
      * rewrite lookup_insert_ne by done. eauto.
Qed.

(** Closing connections that were open, and dropping them from the open
    ones, does not change which connections the transport holds. *)
Lemma known_sweep_shut cs w c :
  (∀ h, h ∈ cs → h ∈ live w) →
  known (sweep (shut cs w)) c ↔ known w c.
Proof.
  intros Hcs. unfold known. simpl.
  rewrite list_elem_of_filter, elem_of_union, elem_of_list_to_set.
  split.
  - intros [[_ ?]|[?|?]]; [by left|by right|left; by apply Hcs].
  - intros [Hl|Hc]; [|right; by left].
    destruct (decide (c ∈ closed w)) as [?|Hn]; [right; by left|].
    destruct (decide (c ∈ cs)) as [?|Hm]; [right; by right|].
    left. split; [|done]. by intros [?|?].
Qed.

Lemma known_accept conn w c :
  ¬ known w conn → known (accept conn w) c ↔ known w c ∨ c = conn.
Proof.
  intros Hfresh. unfold known in *. simpl.
  rewrite decide_False by tauto.
  rewrite elem_of_app, list_elem_of_singleton, elem_of_difference,
    elem_of_singleton.
  split; [tauto|]. intros [[?|Hc]| ->]; [tauto| |tauto].
  right. split; [done|]. intros ->. tauto.
Qed.

Lemma known_forget c' w c : known (forget c' w) c ↔ known w c ∧ c ≠ c'.
Proof.
  unfold known. simpl.
  rewrite list_elem_of_filter, elem_of_difference, elem_of_singleton. tauto.
Qed.

Lemma connect_casualties_live broken conn ctx w h :
  h ∈ connect_casualties broken conn ctx w → h ∈ live w.
Proof.
  unfold connect_casualties.
  destruct (has_position ctx); [|by intros ?%elem_of_nil].
  destruct (jsmap_get (resolve_userId conn ctx) (debtors w));
    [by intros ?%elem_of_nil|].
  by intros [? _]%casualties_broken.
Qed.

Lemma connect_world_known broken conn ctx w c :
  conn ∈ live w →
  known (connect_world broken conn ctx w) c ↔ known w c.
Proof.
  intros Hconn. unfold connect_world. destruct (has_position ctx).
  - by destruct (jsmap_get (resolve_userId conn ctx) (debtors w)).
  - destruct (decide (conn ∈ broken)); [done|]. unfold known. simpl.
    rewrite elem_of_union, elem_of_singleton. split; [|tauto].
    intros [?|[?| ->]]; tauto.
Qed.

Lemma disconnect_world_transport c w :
  live (disconnect_world c w) = live w
  ∧ closed (disconnect_world c w) = closed w
  ∧ connState (disconnect_world c w) = connState w.
Proof.
  unfold disconnect_world.
  destruct (connState w !! c) as [st|]; [|done].
  destruct (userConnections w !! userId st) as [S|]; [|done].
  by destruct (decide (S ∖ {[connectionId st]} = ∅)).
Qed.

Lemma connect_world_transport broken conn ctx w :
  live (connect_world broken conn ctx w) = live w.
Proof.
  unfold connect_world. destruct (has_position ctx).
  - by destruct (jsmap_get (resolve_userId conn ctx) (debtors w)).
  - by destruct (decide (conn ∈ broken)).
Qed.

Lemma accept_live_fresh conn w :
  conn ∉ live w → live (accept conn w) = (live w ++ [conn])%list.
Proof. intros Hc. simpl. by rewrite decide_False. Qed.

Lemma accept_live_conn conn w : conn ∈ live (accept conn w).
Proof.
  simpl. destruct (decide (conn ∈ live w)); [done|].
  apply elem_of_app. right. by apply list_elem_of_singleton.
Qed.

Lemma step_connect_known w conn ctx broken c :
  ¬ known w conn →
  known (step w (EvConnect conn ctx broken)).1 c ↔ known w c ∨ c = conn.
Proof.
  intros Hfresh. rewrite step_connect. simpl fst.
  rewrite known_sweep_shut.
  - rewrite connect_world_known by apply accept_live_conn.
    by apply known_accept.
  - intros h Hh%connect_casualties_live.
    by rewrite connect_world_transport.
Qed.

Lemma mirrored_connect broken conn ctx w :
  ¬ known w conn → mirrored w →
  mirrored (step w (EvConnect conn ctx broken)).1.
Proof.
  intros Hc Hw.
  pose proof (λ c, step_connect_known w conn ctx broken c Hc) as Hk.
  rewrite step_connect in *. simpl fst in *.
  destruct (has_position ctx) eqn:Hp.
  - destruct (connect_world_live broken conn ctx (accept conn w) Hp)
      as (Hu & Hs & _ & _ & _).
    by apply (mirrored_connected (resolve_userId conn ctx) conn w).
  - apply (mirrored_rejected conn w); try done.
    + simpl. unfold connect_world. rewrite Hp.
      by destruct (decide (conn ∈ broken)).
    + simpl. unfold connect_world. rewrite Hp.
      by destruct (decide (conn ∈ broken)).
Qed.

Lemma mirrored_disconnected c' w w' :
  mirrored w →
  connState w' = connState w →
  userConnections w' = userConnections (disconnect_world c' w) →
  (∀ c, known w' c ↔ known w c ∧ c ≠ c') →
  mirrored w'.
Proof.
  intros (Hid & Hreg & Hlive) Hcs Huc Hk.
  assert (∀ u S, userConnections (disconnect_world c' w) !! u = Some S →
            ∃ S0, userConnections w !! u = Some S0 ∧ S ⊆ S0
                  ∧ (c' ∈ S → connState w !! c' = None ∨
                       ∃ st, connState w !! c' = Some st ∧ userId st ≠ u))
    as Hshrink.
  { intros u S. unfold disconnect_world.
    destruct (connState w !! c') as [st|] eqn:Hst;
      [|intros HS; exists S; split; [done|]; split; [done|by left]].
    pose proof (Hid _ _ Hst) as Hcid.
    destruct (userConnections w !! userId st) as [S'|] eqn:HS'.
    - rewrite Hcid.
      destruct (decide (S' ∖ {[c']} = ∅)); simpl;
        (destruct (decide (userId st = u)) as [<-|Hne];
         [| rewrite ?lookup_delete_ne, ?lookup_insert_ne by done;
            intros HS; exists S; split; [done|]; split; [done|];
            right; by exists st]).
      + by rewrite lookup_delete_eq.
      + rewrite lookup_insert_eq. intros [= <-]. exists S'.
        split; [done|]. split; [apply subseteq_difference_l; done|].
        intros Hin. apply elem_of_difference in Hin as [_ Hin].
        exfalso. apply Hin. by apply elem_of_singleton.
    - intros HS. exists S. split; [done|]. split; [done|].
      right. exists st. split; [done|]. intros Hu. congruence. }
  unfold mirrored. rewrite Hcs, Huc. split; [|split].
  - apply Hid.
  - intros u S c HS Hin.
    destruct (Hshrink u S HS) as (S0 & HS0 & Hsub & Hc').
    destruct (Hreg u S0 c HS0 (Hsub c Hin)) as [Hcl Hst].
    split; [|done].
    apply Hk. split; [done|]. intros ->.
    destruct (Hc' Hin) as [Hn|(st & Hst' & Hne)]; [congruence|].
    rewrite Hst in Hst'. injection Hst' as <-. by apply Hne.
  - intros c st [Hin Hne]%Hk Hst.
    destruct (Hlive c st Hin Hst) as (S & HS & HinS).
    unfold disconnect_world.
    destruct (connState w !! c') as [st'|] eqn:Hst'; [|eauto].
    pose proof (Hid _ _ Hst') as Hcid.
    destruct (userConnections w !! userId st') as [S'|] eqn:HS'; [|eauto].
    rewrite Hcid.
    assert (∀ X : gset string, c ∈ X → c ∈ X ∖ {[c']}) as Hkeep.
    { intros X HX. apply elem_of_difference. split; [done|].
      by intros ?%elem_of_singleton. }
    destruct (decide (S' ∖ {[c']} = ∅)) as [He|Hrest]; simpl.
    + destruct (decide (userId st' = userId st)) as [Heq|Hu].
      * exfalso. rewrite Heq, HS in HS'. injection HS' as <-.
        apply (not_elem_of_empty (C:=gset string) c). rewrite <- He.
        by apply Hkeep.
      * rewrite lookup_delete_ne by done. eauto.
    + destruct (decide (userId st' = userId st)) as [Heq|Hu].
      * rewrite Heq, lookup_insert_eq. rewrite Heq, HS in HS'.
        injection HS' as <-. eexists. split; [done|]. by apply Hkeep.
      * rewrite lookup_insert_ne by done. eauto.
Qed.

Lemma close_known broken c' w c :
  known (sweep (shut (disconnect_casualties broken c' (forget c' w))
                  (disconnect_world c' (forget c' w)))) c
  ↔ known w c ∧ c ≠ c'.
Proof.
  destruct (disconnect_world_transport c' (forget c' w)) as (Hl & Hc & _).
  rewrite known_sweep_shut.
  - rewrite <- known_forget. unfold known. by rewrite Hl, Hc.
  - intros h Hh%disconnect_casualties_live. by rewrite Hl.
Qed.

Lemma mirrored_close broken c' w :
  mirrored w →
  mirrored (sweep (shut (disconnect_casualties broken c' (forget c' w))
                     (disconnect_world c' (forget c' w)))).
Proof.
  intros Hw. apply (mirrored_disconnected c' w); [done| | |].
  - simpl. by destruct (disconnect_world_transport c' (forget c' w))
      as (_ & _ & ->).
  - simpl. unfold disconnect_world. simpl.
    destruct (connState w !! c') as [st|]; [|done].
    destruct (userConnections w !! userId st) as [S|]; [|done].
    by destruct (decide (S ∖ {[connectionId st]} = ∅)).
  - intros c. apply close_known.
Qed.

Lemma mirrored_run evs w :
  mirrored w → well_sequenced w evs → mirrored (run w evs).1.
Proof.
  revert w. induction evs as [|ev evs IH]; intros w Hw Hseq; [done|].
  rewrite run_cons. simpl fst. destruct Hseq as [Hev Hseq].
  apply IH; [|done].
  destruct ev as [conn ctx b|conn b|conn b].
  - by apply mirrored_connect.
  - rewrite step_close. by apply mirrored_close.
  - rewrite step_error. by apply mirrored_close.
Qed.

(** What [mirrored] and [consistent] give together. *)
Lemma records_follow_known w :
  mirrored w → consistent w →
  ∀ u, is_Some (jsmap_get u (debtors w))
       ↔ ∃ c, known w c
              ∧ connState w !! c = Some {| userId := u; connectionId := c |}.
Proof.
  intros (Hid & Hreg & Hlive) [Hkeys Hne] u. rewrite Hkeys. split.
  - intros [S HS]. destruct (set_choose_L S (Hne u S HS)) as [c Hc].
    exists c. by apply (Hreg u S).
  - intros (c & Hin & Hst). destruct (Hlive c _ Hin Hst) as (S & HS & _).
    by exists S.
Qed.


(** X5.  When every connect event brings a handle the transport does not
    hold, the registry is, after any sequence of events and whichever
    sends fail, the index of the states of the connections the transport
    holds: a handle is in the set of an identity exactly if it is open, or
    closed by the server with its close callback still to run, and its
    state names that identity (and itself as connection id).  A
    connection that [broadcast] has closed is thus no longer in
    [getConnections()] but stays registered until its close event. *)
Theorem registry_mirrors_live_states (evs : list Event) :
  well_sequenced init evs →
  let w := (run init evs).1 in
  ∀ u c,
    (∃ conns, userConnections w !! u = Some conns ∧ c ∈ conns)
    ↔ ((c ∈ live w ∨ c ∈ closed w)
       ∧ connState w !! c = Some {| userId := u; connectionId := c |}).
Proof.
  intros Hseq w u c.
  destruct (mirrored_run evs init mirrored_init Hseq) as (Hid & Hreg & Hlive).
  fold w in Hid, Hreg, Hlive. split.
  - intros (S & HS & Hin). by apply (Hreg u S).
  - intros [Hin Hst]. by apply (Hlive c _ Hin Hst).
Qed.

(** X6.  Under the same condition on handles, an identity has a record
    exactly if some connection the transport holds (open, or closed by the
    server and waiting for its close callback) carries it in its state;
    and once the transport holds no connection, the store and the registry
    are empty. *)
Theorem records_follow_live_connections (evs : list Event) :
  well_sequenced init evs →
  let w := (run init evs).1 in
  (∀ u, is_Some (jsmap_get u (debtors w))
        ↔ ∃ c, (c ∈ live w ∨ c ∈ closed w)
               ∧ connState w !! c = Some {| userId := u; connectionId := c |})
  ∧ (live w = [] → closed w = ∅ → debtors w = [] ∧ userConnections w = ∅).
Proof.
  intros Hseq w.
  pose proof (records_follow_known w
                (mirrored_run evs init mirrored_init Hseq)
                (consistent_run evs init consistent_init)) as Hiff.
  destruct (consistent_run evs init consistent_init) as [Hkeys Hne].
  fold w in Hkeys, Hne.
  split; [done|]. intros Hnone Hpending.
  assert (∀ u, jsmap_get u (debtors w) = None) as Hempty.
  { intros u. apply eq_None_not_Some. rewrite Hiff.
    intros (c & [Hin|Hin] & _).
    - rewrite Hnone in Hin. by apply elem_of_nil in Hin.
    - rewrite Hpending in Hin. by apply not_elem_of_empty in Hin. }
  split.
  - destruct (debtors w) as [|[k v] m]; [done|].
    specialize (Hempty k). simpl in Hempty. by rewrite decide_True in Hempty.
  - apply map_empty. intros u. apply eq_None_not_Some. rewrite <- Hkeys.
    by rewrite Hempty; intros [? ?].
Qed.

(** ** What the messages say *)

Lemma jsmap_keys_set_fresh {V} k (v : V) m :
  jsmap_get k m = None → jsmap_keys (jsmap_set k v m) = (jsmap_keys m ++ [k])%list.
Proof.
  unfold jsmap_keys. induction m as [|[k' v'] m IH]; simpl; [done|].
  destruct (decide (k' = k)) as [->|Hne]; [done|]. intros Hg. csimpl.
  f_equal. by apply IH.
Qed.

Lemma jsmap_set_keys_NoDup {V} k (v : V) m :
  NoDup (jsmap_keys m) → NoDup (jsmap_keys (jsmap_set k v m)).
Proof.
  intros Hm. destruct (jsmap_get k m) as [v0|] eqn:Hg.
  - rewrite jsmap_keys_set_present by (by rewrite Hg). done.
  - rewrite jsmap_keys_set_fresh by done. apply NoDup_app.
    split; [done|]. split; [|apply NoDup_singleton].
    intros x Hx ->%list_elem_of_singleton. by apply jsmap_get_None in Hg.
Qed.

Lemma jsmap_delete_keys {V} k (m : list (string * V)) :
  jsmap_keys (jsmap_delete k m) = filter (λ k', k' ≠ k) (jsmap_keys m).
Proof.
  unfold jsmap_keys. induction m as [|[k' v'] m IH]; simpl; [done|].
  destruct (decide (k' = k)) as [->|Hne]; csimpl.
  - by rewrite filter_cons_False by (by intros ?).
  - rewrite filter_cons_True by done. by rewrite IH.
Qed.

Lemma jsmap_get_elem_NoDup {V} k (v : V) m :
  NoDup (jsmap_keys m) → (k, v) ∈ m → jsmap_get k m = Some v.
Proof.
  unfold jsmap_keys. induction m as [|[k' v'] m IH]; csimpl;
    [by intros _ ?%elem_of_nil|].
  intros [Hk Hm]%NoDup_cons [Heq|Hin]%elem_of_cons.
  - injection Heq as -> ->. by rewrite decide_True.
  - destruct (decide (k' = k)) as [->|Hne]; [|by apply IH].
    exfalso. apply Hk. apply list_elem_of_fmap. by exists (k, v).
Qed.

Lemma keys_unique_connect broken conn ctx w :
  NoDup (jsmap_keys (debtors w)) →
  NoDup (jsmap_keys (debtors (connect_world broken conn ctx w))).
Proof.
  intros Hw. unfold connect_world. destruct (has_position ctx).
  - destruct (jsmap_get (resolve_userId conn ctx) (debtors w));
      by apply jsmap_set_keys_NoDup.
  - by destruct (decide (conn ∈ broken)).
Qed.

Lemma keys_unique_disconnect c w :
  NoDup (jsmap_keys (debtors w)) →
  NoDup (jsmap_keys (debtors (disconnect_world c w))).
Proof.
  intros Hw. unfold disconnect_world.
  destruct (connState w !! c) as [st|]; [|done].
  destruct (userConnections w !! userId st) as [S|]; [|done].
  destruct (decide (S ∖ {[connectionId st]} = ∅)); [|done].
  simpl. rewrite jsmap_delete_keys. by apply NoDup_filter.
Qed.

Lemma keys_unique_run evs w :
  NoDup (jsmap_keys (debtors w)) →
  NoDup (jsmap_keys (debtors (run w evs).1)).
Proof.
  revert w. induction evs as [|ev evs IH]; intros w Hw; [done|].
  rewrite run_cons. simpl fst. apply IH.
  destruct ev as [conn ctx b|conn b|conn b].
  - rewrite step_connect. by apply keys_unique_connect.
  - rewrite step_close. by apply (keys_unique_disconnect conn).
  - rewrite step_error. by apply (keys_unique_disconnect conn).
Qed.

Lemma connect_log_truthful broken conn ctx w :
  NoDup (jsmap_keys (debtors w)) →
  Forall (λ p, truthful w (connect_world broken conn ctx w) p.2)
         (connect_log broken conn ctx w).
Proof.
  intros Hnd. pose proof (keys_unique_connect broken conn ctx w Hnd) as Hnd'.
  unfold connect_log, connect_world in *. destruct (has_position ctx).
  - destruct (jsmap_get (resolve_userId conn ctx) (debtors w)) as [d|] eqn:Hg.
    + destruct (decide (conn ∈ broken)); [done|]. constructor.
      * simpl. eexists. apply jsmap_get_set_eq.
      * unfold snapshot. apply Forall_map, Forall_forall.
        intros [k v] [_ Hin]%list_elem_of_filter. simpl. exists k.
        by apply jsmap_get_elem_NoDup.
    + apply Forall_map, Forall_forall. intros c _. simpl.
      eexists. apply jsmap_get_set_eq.
  - destruct (decide (conn ∈ broken)); [done|]. by constructor.
Qed.

Lemma disconnect_log_truthful broken c w :
  consistent w →
  Forall (λ p, truthful w (disconnect_world c w) p.2)
         (disconnect_log broken c w).
Proof.
  intros [Hkeys _]. unfold disconnect_log, disconnect_world.
  destruct (connState w !! c) as [st|]; [|done].
  destruct (userConnections w !! userId st) as [S|] eqn:HS; [|done].
  destruct (decide (S ∖ {[connectionId st]} = ∅)); [|done].
  apply Forall_map, Forall_forall. intros c' _. simpl. split.
  - apply Hkeys. by rewrite HS.
  - apply jsmap_get_delete_eq.
Qed.

(** X7.  In every state reached from the initial one, the messages of an
    event tell the truth about the store, whatever sends fail: an
    add-debtor carries a record that is in the store once the event is
    handled, a remove-debtor names an identity that had a record before the
    event and has none after it, and an error goes with an unchanged
    store. *)
Theorem messages_are_truthful (evs : list Event) (ev : Event) :
  let w := (run init evs).1 in
  Forall (λ p, truthful w (step w ev).1 p.2) (step w ev).2.
Proof.
  intros w.
  assert (NoDup (jsmap_keys (debtors w))) as Hnd
    by (apply keys_unique_run; constructor).
  pose proof (consistent_run evs init consistent_init) as Hcons. fold w in Hcons.
  destruct ev as [conn ctx b|conn b|conn b].
  - rewrite step_connect. simpl fst. simpl snd.
    eapply Forall_impl;
      [apply (connect_log_truthful b conn ctx (accept conn w) Hnd)|].
    intros [c m] Hm. by destruct m.
  - rewrite step_close. simpl fst. simpl snd.
    eapply Forall_impl;
      [apply (disconnect_log_truthful b conn (forget conn w));
       by apply (consistent_ext w)|].
    intros [c m] Hm. by destruct m.
  - rewrite step_error. simpl fst. simpl snd.
    eapply Forall_impl;
      [apply (disconnect_log_truthful b conn (forget conn w));
       by apply (consistent_ext w)|].
    intros [c m] Hm. by destruct m.
Qed.

(** ** The shape of the stored records *)

Lemma generated_shape_connect broken conn ctx w :
  Forall (λ p, generated_shape p.2) (debtors w) →
  Forall (λ p, generated_shape p.2) (debtors (connect_world broken conn ctx w)).
Proof.
  intros Hw. unfold connect_world. destruct (has_position ctx).
  - destruct (jsmap_get (resolve_userId conn ctx) (debtors w)) as [d|] eqn:Hg.
    + apply jsmap_set_Forall; [done|]. simpl.
      apply jsmap_get_Some_elem in Hg. rewrite Forall_forall in Hw.
      apply (Hw _ Hg).
    + apply jsmap_set_Forall; [done|]. simpl. unfold generated_shape. simpl.
      split; [destruct (draw_defaulted (entropy (rng w))); auto|].
      split; [done|]. split; [done|]. by eexists.
  - by destruct (decide (conn ∈ broken)).
Qed.

Lemma generated_shape_disconnect c w :
  Forall (λ p, generated_shape p.2) (debtors w) →
  Forall (λ p, generated_shape p.2) (debtors (disconnect_world c w)).
Proof.
  intros Hw. unfold disconnect_world.
  destruct (connState w !! c) as [st|]; [|done].
  destruct (userConnections w !! userId st) as [S|]; [|done].
  destruct (decide (S ∖ {[connectionId st]} = ∅)); [|done].
  by apply jsmap_delete_Forall.
Qed.

(** X8.  Every record the server ever stores has the shape its creation
    gave it, whatever sends fail and however often its identity re-joins:
    its status is active or defaulted (never paid or legal), it has no last
    payment date, its phone number starts with the prefix +855, and its
    name is the word Debtor followed by [slice(0, 6)] of its position id,
    the first six UTF-16 code units of it. *)
Theorem stored_records_keep_generated_shape (evs : list Event) :
  Forall (λ p, generated_shape p.2) (debtors (run init evs).1).
Proof.
  assert (∀ w, Forall (λ p, generated_shape p.2) (debtors w) →
               Forall (λ p, generated_shape p.2) (debtors (run w evs).1)) as Hrun.
  { induction evs as [|ev evs IH]; intros w Hw; [done|].
    rewrite run_cons. simpl fst. apply IH.
    destruct ev as [conn ctx b|conn b|conn b].
    - rewrite step_connect. by apply generated_shape_connect.
    - rewrite step_close. by apply (generated_shape_disconnect conn).
    - rewrite step_error. by apply (generated_shape_disconnect conn). }
  apply Hrun. constructor.
Qed.

(** ** The snapshot of a re-join *)

Lemma filter_absent_key {V} k (m : list (string * V)) :
  k ∉ jsmap_keys m → filter (λ p, p.1 ≠ k) m = m.
Proof.
  unfold jsmap_keys. induction m as [|[k' v'] m IH]; [done|]. csimpl.
  intros [Hne Hk]%not_elem_of_cons.
  rewrite filter_cons_True by (simpl; congruence). by rewrite IH.
Qed.

Lemma snapshot_permutation {V} k (v : V) m :
  NoDup (jsmap_keys m) → is_Some (jsmap_get k m) →
  v :: (filter (λ p, p.1 ≠ k) (jsmap_set k v m)).*2 ≡ₚ (jsmap_set k v m).*2.
Proof.
  unfold jsmap_keys. induction m as [|[k' v'] m IH]; csimpl;
    [by intros _ [? ?]|].
  intros [Hk Hm]%NoDup_cons Hg. destruct (decide (k' = k)) as [->|Hne].
  - rewrite filter_cons_False by (simpl; by intros ?).
    by rewrite filter_absent_key.
  - rewrite filter_cons_True by done. csimpl.
    rewrite Permutation_swap. f_equiv. by apply IH.
Qed.

(** X9.  A re-join on a connection whose sends succeed hands the new
    connection a complete picture of the store: the handler returns
    normally, every message goes to the new connection, each is an
    add-debtor, and the records they carry are exactly the records of the
    store after the event, each once (the own record first, with its new
    position). *)
Theorem rejoin_snapshot_is_complete (broken : gset string) (conn : string)
    (ctx : Request) (w : World) (d : DebtorInfo) :
  has_position ctx = true →
  jsmap_get (resolve_userId conn ctx) (debtors w) = Some d →
  NoDup (jsmap_keys (debtors w)) →
  conn ∉ broken →
  let r := onConnect broken conn ctx w [] in
  r.1.1 = Some tt
  ∧ Forall (λ p, p.1 = conn) r.2
  ∧ ∃ ds, r.2.*2 = add_debtor <$> ds
          ∧ head ds = Some (update_position (latitude_of ctx)
                              (longitude_of ctx) d)
          ∧ ds ≡ₚ (debtors r.1.2).*2.
Proof.
  intros Hp Hg Hnd Hc r. subst r.
  rewrite (onConnect_rejoined broken conn ctx w [] d Hp Hg).
  rewrite decide_False by done. simpl.
  set (u := resolve_userId conn ctx) in *.
  set (d' := update_position (latitude_of ctx) (longitude_of ctx) d).
  split; [done|]. split.
  - constructor; [done|]. unfold snapshot. apply Forall_map, Forall_forall.
    by intros.
  - exists (d' :: (filter (λ p, p.1 ≠ u) (jsmap_set u d' (debtors w))).*2).
    split; [|split; [done|]].
    + csimpl. f_equal. unfold snapshot.
      induction (filter (λ p, p.1 ≠ u) (jsmap_set u d' (debtors w)))
        as [|[k v] l IH]; [done|]. csimpl. by rewrite IH.
    + apply snapshot_permutation; [done | by rewrite Hg].
Qed.

End Composition.

(** * The second server *)

Section PerConnectionFacts.
Context `{Runtime}.
Implicit Types (w : PerConnection.World) (log : list (string * Message)).

Lemma per_connection_turn conn (new : DebtorInfo) cid st w log :
  try_catch
    (match st with
     | Some st => send ∅ conn (add_debtor (PerConnection.debtor st))
     | None => throw
     end;;
     if decide (cid ≠ conn)
     then send ∅ cid (add_debtor new)
     else mret tt)
    (PerConnection.onCloseOrError ∅ conn) w log
  = (Some tt, w,
     (log ++ loop_turn conn new (PerConnection.connections w).*1 (cid, st))%list).
Proof.
  destruct st as [st|]; unfold loop_turn; simpl.
  - unfold try_catch, mbind, M_bind, bind, send, mret, M_ret, ret.
    rewrite decide_False by apply not_elem_of_empty.
    destruct (decide (cid ≠ conn)).
    + rewrite decide_False by apply not_elem_of_empty.
      by rewrite <- app_assoc.
    + done.
  - unfold try_catch, mbind, M_bind, bind, throw.
    unfold PerConnection.onCloseOrError, PerConnection.this_broadcast.
    unfold mbind, M_bind, bind, gets. apply broadcast_reliable.
Qed.

Lemma per_connection_loop conn (new : DebtorInfo) cs w log :
  for_each cs (λ '(connection_id, connection_state),
    try_catch
      (match connection_state with
       | Some st => send ∅ conn (add_debtor (PerConnection.debtor st))
       | None => throw
       end;;
       if decide (connection_id ≠ conn)
       then send ∅ connection_id (add_debtor new)
       else mret tt)
      (PerConnection.onCloseOrError ∅ conn)) w log
  = (Some tt, w,
     (log ++ concat (map (loop_turn conn new (PerConnection.connections w).*1)
                       cs))%list).
Proof.
  revert log. induction cs as [|[cid st] cs IH]; intros log; simpl.
  - by rewrite app_nil_r.
  - unfold bind at 1.
    rewrite (per_connection_turn conn new cid st w log). simpl.
    rewrite IH. by rewrite <- app_assoc.
Qed.

Lemma per_connection_onConnect conn ctx w :
  has_position ctx = true →
  let new := new_debtorInfo conn (latitude_of ctx) (longitude_of ctx)
               (entropy (PerConnection.rng w)) in
  let w' := PerConnection.setState conn {| PerConnection.debtor := new |}
              (PerConnection.mkWorld (PerConnection.connections w)
                 (PerConnection.closed w)
                 (PerConnection.rng w + draws_per_payload)) in
  PerConnection.onConnect ∅ conn ctx w []
  = (Some tt, w',
     concat (map (loop_turn conn new (PerConnection.connections w').*1)
               (PerConnection.connections w'))).
Proof.
  intros Hp%has_position_true new w'. subst new w'.
  unfold PerConnection.onConnect, latitude_of, longitude_of.
  destruct (resolve_position ctx) as [la lo]; simpl in *. rewrite Hp.
  exact (per_connection_loop conn
           (new_debtorInfo conn (default "" la) (default "" lo)
              (entropy (PerConnection.rng w)))
           (PerConnection.connections
              (PerConnection.setState conn
                 {| PerConnection.debtor :=
                      new_debtorInfo conn (default "" la) (default "" lo)
                        (entropy (PerConnection.rng w)) |}
                 (PerConnection.mkWorld (PerConnection.connections w)
                    (PerConnection.closed w)
                    (PerConnection.rng w + draws_per_payload))))
           _ []).
Qed.

Lemma setState_ids conn st w :
  (PerConnection.connections (PerConnection.setState conn st w)).*1
  = (PerConnection.connections w).*1.
Proof.
  simpl. induction (PerConnection.connections w) as [|[c old] cs IH]; [done|].
  csimpl. rewrite IH. by destruct (decide (c = conn)).
Qed.

Lemma setState_all_set conn st w :
  Forall (λ e, e.1 = conn ∨ is_Some e.2) (PerConnection.connections w) →
  Forall (λ e, is_Some e.2)
         (PerConnection.connections (PerConnection.setState conn st w)).
Proof.
  simpl. induction 1 as [|[c old] cs Hx Hcs IH]; [done|]. csimpl.
  constructor; [|done]. destruct (decide (c = conn)); [by eexists|].
  by destruct Hx.
Qed.

Lemma setState_keeps conn st w c0 old :
  c0 ≠ conn → (c0, old) ∈ PerConnection.connections w →
  (c0, old) ∈ PerConnection.connections (PerConnection.setState conn st w).
Proof.
  intros Hne Hin. simpl. apply list_elem_of_fmap. exists (c0, old).
  split; [|done]. by rewrite decide_False.
Qed.

Lemma setState_sets conn st w :
  conn ∈ (PerConnection.connections w).*1 →
  (conn, Some st) ∈ PerConnection.connections (PerConnection.setState conn st w).
Proof.
  intros ([c old] & -> & Hin)%list_elem_of_fmap. simpl.
  apply list_elem_of_fmap. exists (c, old). split; [|done].
  by rewrite decide_True.
Qed.

Lemma inbox_cons_to p (m : Message) log : inbox p ((p, m) :: log) = m :: inbox p log.
Proof. unfold inbox. by rewrite filter_cons_True. Qed.

Lemma inbox_cons_other p c (m : Message) log :
  c ≠ p → inbox p ((c, m) :: log) = inbox p log.
Proof. intros Hne. unfold inbox. by rewrite filter_cons_False. Qed.

Lemma concat_map_cons {A B} (f : A → list B) x l :
  concat (map f (x :: l)) = (f x ++ concat (map f l))%list.
Proof. done. Qed.

Lemma elem_of_concat_map {A B} (f : A → list B) (x : B) (e : A) (l : list A) :
  x ∈ f e → e ∈ l → x ∈ concat (map f l).
Proof.
  intros Hx. induction l as [|e' l IH]; [by intros ?%elem_of_nil|].
  rewrite concat_map_cons. intros [->|Hin]%elem_of_cons; apply elem_of_app.
  - by left.
  - right. by apply IH.
Qed.

Lemma loop_inbox_new conn (new : DebtorInfo) ids cs :
  Forall (λ e : string * option PerConnection.ConnectionState, is_Some e.2) cs →
  inbox conn (concat (map (loop_turn conn new ids) cs))
  = add_debtor <$> omap (λ e, PerConnection.debtor <$> e.2) cs.
Proof.
  induction 1 as [|[cid st] cs [x Hx] Hcs IH]; [done|].
  simpl in Hx. subst st. rewrite concat_map_cons, inbox_app, IH.
  unfold loop_turn. simpl snd. simpl fst. cbv iota.
  rewrite inbox_cons_to. destruct (decide (cid ≠ conn)); [|done].
  by rewrite inbox_cons_other.
Qed.

Lemma loop_inbox_peer conn (new : DebtorInfo) ids cs p :
  p ≠ conn →
  Forall (λ e : string * option PerConnection.ConnectionState, is_Some e.2) cs →
  NoDup cs.*1 →
  inbox p (concat (map (loop_turn conn new ids) cs))
  = if decide (p ∈ cs.*1) then [add_debtor new] else [].
Proof.
  intros Hp. induction 1 as [|[cid st] cs [x Hx] Hcs IH].
  - intros _. by rewrite decide_False by (by intros ?%elem_of_nil).
  - rewrite fmap_cons. intros [Hcid Hnd]%NoDup_cons. simpl in Hx. subst st.
    rewrite concat_map_cons, inbox_app, (IH Hnd).
    unfold loop_turn. simpl snd. simpl fst. cbv iota.
    rewrite inbox_cons_other by done.
    destruct (decide (cid = p)) as [->|Hne].
    + rewrite decide_True by done. rewrite inbox_cons_to.
      rewrite decide_False by done. rewrite decide_True by left. done.
    + destruct (decide (cid ≠ conn)).
      * rewrite inbox_cons_other by done. simpl.
        destruct (decide (p ∈ cs.*1)).
        -- by rewrite decide_True by (by right).
        -- rewrite decide_False; [done|].
           intros [?|?]%elem_of_cons; congruence.
      * simpl. destruct (decide (p ∈ cs.*1)).
        -- by rewrite decide_True by (by right).
        -- rewrite decide_False; [done|].
           intros [?|?]%elem_of_cons; congruence.
Qed.

Lemma loop_no_removal conn (new : DebtorInfo) ids cs :
  Forall (λ e : string * option PerConnection.ConnectionState, is_Some e.2) cs →
  Forall (λ p, is_remove p.2 = false)
         (concat (map (loop_turn conn new ids) cs)).
Proof.
  induction 1 as [|[cid st] cs [x Hx] Hcs IH]; [done|].
  simpl in Hx. subst st. rewrite concat_map_cons. apply Forall_app.
  split; [|done].
  unfold loop_turn. simpl. constructor; [done|].
  destruct (decide (cid ≠ conn)); by repeat constructor.
Qed.

(** X10.  The second server, on a connect with a usable position when no
    send fails and every other connection of [getConnections()] has its
    state: the handler returns normally, the new connection is handed the
    record of every connection, its own included, in order; every other
    connection is handed the new record and nothing else; nobody is told of
    a removal. *)
Theorem per_connection_connect_is_complete (conn : string) (ctx : Request)
    (w : PerConnection.World) :
  has_position ctx = true →
  NoDup (PerConnection.connections w).*1 →
  conn ∈ (PerConnection.connections w).*1 →
  Forall (λ e, e.1 = conn ∨ is_Some e.2) (PerConnection.connections w) →
  let r := PerConnection.onConnect ∅ conn ctx w [] in
  let new := new_debtorInfo conn (latitude_of ctx) (longitude_of ctx)
               (entropy (PerConnection.rng w)) in
  r.1.1 = Some tt
  ∧ inbox conn r.2 = add_debtor <$> carried_records r.1.2
  ∧ length (carried_records r.1.2) = length (PerConnection.connections w)
  ∧ new ∈ carried_records r.1.2
  ∧ (∀ p, p ∈ (PerConnection.connections w).*1 → p ≠ conn →
       inbox p r.2 = [add_debtor new])
  ∧ Forall (λ p, is_remove p.2 = false) r.2.
Proof.
  intros Hp Hnd Hin Hst r new. subst r new.
  rewrite (per_connection_onConnect conn ctx w Hp). simpl fst. simpl snd.
  set (new := new_debtorInfo conn (latitude_of ctx) (longitude_of ctx)
                (entropy (PerConnection.rng w))).
  set (w0 := PerConnection.mkWorld (PerConnection.connections w)
               (PerConnection.closed w)
               (PerConnection.rng w + draws_per_payload)).
  set (w' := PerConnection.setState conn {| PerConnection.debtor := new |} w0).
  assert (Forall (λ e, is_Some e.2) (PerConnection.connections w')) as Hall
    by (by apply setState_all_set).
  assert ((PerConnection.connections w').*1 = (PerConnection.connections w).*1)
    as Hids by apply (setState_ids conn _ w0).
  split; [done|]. split; [by apply loop_inbox_new|]. split; [|split; [|split]].
  - unfold carried_records.
    rewrite <- (length_fmap fst (PerConnection.connections w)), <- Hids.
    rewrite length_fmap. clear -Hall.
    induction Hall as [|[c st] cs [x Hx] _ IH]; [done|].
    simpl in Hx. subst st. csimpl. by rewrite IH.
  - unfold carried_records. apply list_elem_of_omap.
    exists (conn, Some {| PerConnection.debtor := new |}).
    split; [|done]. by apply (setState_sets conn _ w0).
  - intros p Hpin Hne.
    rewrite loop_inbox_peer;
      [|done|done|change (NoDup (PerConnection.connections w').*1);
                  by rewrite Hids].
    apply decide_True. change (p ∈ (PerConnection.connections w').*1).
    by rewrite Hids.
  - by apply loop_no_removal.
Qed.

(** X11.  The second server, on a connect with a usable position when no
    send fails but [getConnections()] holds another connection that has no
    state: reading that state throws inside the loop, the handler treats it
    like a failed send, and every connection other than the new one is told
    to remove the new connection. *)
Theorem per_connection_stateless_peer_evicts_newcomer (conn c0 p : string)
    (ctx : Request) (w : PerConnection.World) :
  has_position ctx = true →
  (c0, None) ∈ PerConnection.connections w →
  c0 ≠ conn →
  p ∈ (PerConnection.connections w).*1 →
  p ≠ conn →
  (p, remove_debtor conn) ∈ (PerConnection.onConnect ∅ conn ctx w []).2.
Proof.
  intros Hp Hc0 Hne Hpin Hpne.
  rewrite (per_connection_onConnect conn ctx w Hp). simpl snd.
  set (new := new_debtorInfo conn (latitude_of ctx) (longitude_of ctx)
                (entropy (PerConnection.rng w))).
  set (w0 := PerConnection.mkWorld (PerConnection.connections w)
               (PerConnection.closed w)
               (PerConnection.rng w + draws_per_payload)).
  set (w' := PerConnection.setState conn {| PerConnection.debtor := new |} w0).
  apply (elem_of_concat_map _ _ (c0, None)).
  - unfold loop_turn. simpl snd. cbv iota. apply list_elem_of_fmap. exists p.
    split; [done|]. apply list_elem_of_filter. split.
    + by intros ?%list_elem_of_singleton.
    + change (p ∈ (PerConnection.connections w').*1).
      unfold w'. by rewrite (setState_ids conn _ w0).
  - by apply (setState_keeps conn _ w0).
Qed.

End PerConnectionFacts.

(** * The client's identity *)

Section ClientFacts.
Context `{Runtime}.

(** X12.  [getPersistentUserId] generates an identity at most once: the
    identity it returns is not empty and is what [localStorage] holds
    afterwards, and a later call returns the same identity and leaves the
    storage alone, whatever the clock and the random source say then. *)
Theorem persistent_id_is_stable (now rand now' rand' : string)
    (localStorage : gmap string string) :
  let r := Client.getPersistentUserId now rand localStorage in
  r.1 ≠ ""
  ∧ r.2 !! Client.STORAGE_KEY = Some r.1
  ∧ Client.getPersistentUserId now' rand' r.2 = r.
Proof.
  intros r. subst r. unfold Client.getPersistentUserId.
  destruct (truthy (localStorage !! Client.STORAGE_KEY)) eqn:Ht; simpl.
  - rewrite Ht. split; [|split; [by rewrite truthy_default | done]].
    destruct (localStorage !! Client.STORAGE_KEY) as [v|]; [|done].
    simpl in *. by apply bool_decide_eq_true in Ht.
  - rewrite lookup_insert_eq. done.
Qed.

Lemma socket_query_userId lat lng userId conn :
  userId ≠ "" → resolve_userId conn (Client.socket_query lat lng userId) = userId.
Proof.
  intros Hne. unfold resolve_userId, Client.socket_query, searchParams_get.
  simpl. by rewrite bool_decide_eq_true_2.
Qed.

Lemma socket_query_position lat lng userId :
  lat ≠ "" → lng ≠ "" →
  has_position (Client.socket_query lat lng userId) = true.
Proof.
  intros Hla Hlo. unfold has_position, resolve_position, searchParams_get.
  simpl. rewrite !bool_decide_eq_true_2 by done. simpl.
  by rewrite !bool_decide_eq_true_2.
Qed.

(** X13.  A browser without a stored identity generates one from the
    clock and a random suffix and opens its socket with it; if the server
    has no record for it, the record it creates is named after the first
    six code units of that identity, which are the prefix user_ and the
    first digit of the clock's text, an ASCII character.  The rest of the
    clock and the random suffix do not enter the name. *)
Theorem generated_identity_name (digit : Ascii.ascii) (digits rand lat lng conn : string)
    (localStorage : gmap string string) (broken : gset string) (w : World) :
  truthy (localStorage !! Client.STORAGE_KEY) = false →
  is_ascii digit = true →
  lat ≠ "" →
  lng ≠ "" →
  let userId :=
    (Client.getPersistentUserId (String digit digits) rand localStorage).1 in
  jsmap_get userId (debtors w) = None →
  let w' :=
    (step w (EvConnect conn (Client.socket_query lat lng userId) broken)).1 in
  ∃ d, jsmap_get userId (debtors w') = Some d
       ∧ id (position d) = userId
       ∧ name d = Some ("Debtor user_" +:+ String digit "").
Proof.
  intros Ht Hdigit Hla Hlo userId.
  assert (userId = "user_" +:+ String digit digits +:+ "_" +:+ rand) as Hid
    by (subst userId; unfold Client.getPersistentUserId; by rewrite Ht).
  clearbody userId. intros Hfresh w'. subst w'.
  assert (userId ≠ "") as Hne by (by rewrite Hid).
  rewrite step_connect. simpl fst.
  cbn [debtors sweep shut set_live set_closed].
  destruct (connect_world_live broken conn (Client.socket_query lat lng userId)
              (accept conn w) (socket_query_position lat lng userId Hla Hlo))
    as (_ & _ & _ & _ & Hd).
  rewrite (socket_query_userId lat lng userId conn Hne) in Hd.
  simpl in Hd. rewrite Hfresh in Hd. rewrite Hd.
  eexists. split; [apply jsmap_get_set_eq|]. split; [done|].
  simpl. rewrite Hid.
  assert (slice_to 6 ("user_" +:+ String digit digits +:+ "_" +:+ rand)
          = "user_" +:+ String digit "") as ->; [|reflexivity].
  destruct digit as [b0 b1 b2 b3 b4 b5 b6 b7]. simpl in Hdigit.
  apply negb_true_iff in Hdigit as ->.
  change (slice_to 6 ("user_" +:+ String (Ascii.Ascii b0 b1 b2 b3 b4 b5 b6 false)
                                    digits +:+ "_" +:+ rand))
    with ("user_" +:+ String (Ascii.Ascii b0 b1 b2 b3 b4 b5 b6 false)
            (take_units 0 0 (digits +:+ "_" +:+ rand))).
  by destruct (digits +:+ "_" +:+ rand).
Qed.

End ClientFacts.

(** * The further theorems at work on the sample states *)

Section MoreWitnesses.
#[local] Existing Instance sample_runtime.

(** C connects as the new identity u3 while A and B are connected. *)
Lemma connect_then_lookup_witness :
  connState (step two_users (EvConnect "C" (query "u3" "3" "3") ∅)).1 !! "C"
  = Some {| userId := "u3"; connectionId := "C" |}
  ∧ ∃ d, jsmap_get "u3"
           (debtors (step two_users (EvConnect "C" (query "u3" "3" "3") ∅)).1)
         = Some d
         ∧ lat (position d) = parseFloat "3".
Proof.
  destruct (connect_then_lookup ∅ "C" (query "u3" "3" "3") two_users eq_refl)
    as ((d & Hd & Hlat & _) & _ & Hst & _).
  split; [exact Hst|]. exists d. split; [exact Hd | exact Hlat].
Defined.

(** C connects as the new identity u3 while the sends to A fail, and
    closes again. *)
Lemma connect_close_restores_witness :
  let s1 := step two_users (EvConnect "C" (query "u3" "3" "3") {["A"]}) in
  let s2 := step s1.1 (EvClose "C" ∅) in
  debtors s2.1 = debtors two_users
  ∧ userConnections s2.1 = userConnections two_users
  ∧ live s2.1 = ["B"].
Proof.
  assert (jsmap_get (resolve_userId "C" (query "u3" "3" "3")) (debtors two_users)
          = None) as Hfresh by (vm_compute; reflexivity).
  assert (userConnections two_users !! resolve_userId "C" (query "u3" "3" "3")
          = None) as Hreg by (vm_compute; reflexivity).
  destruct (connect_close_restores {["A"]} ∅ "C" (query "u3" "3" "3") two_users
              eq_refl Hfresh Hreg) as (Hd & Hu & Hl & _).
  split; [exact Hd|]. split; [exact Hu|].
  cbv zeta. rewrite Hl. vm_compute. reflexivity.
Defined.

(** C joins as a second connection of u2 and closes again. *)
Lemma second_tab_passes_unnoticed_witness :
  let s1 := step two_users (EvConnect "C" (query "u2" "9" "9") ∅) in
  let s2 := step s1.1 (EvClose "C" ∅) in
  userConnections s2.1 = userConnections two_users ∧ s2.2 = [].
Proof.
  assert (jsmap_get (resolve_userId "C" (query "u2" "9" "9")) (debtors two_users)
          = Some (new_debtorInfo "u2" "2" "2" (entropy 7))) as Hg
    by (vm_compute; reflexivity).
  assert (userConnections two_users !! resolve_userId "C" (query "u2" "9" "9")
          = Some {["B"]}) as Hreg by (vm_compute; reflexivity).
  assert ("C" ∉ ({["B"]} : gset string)) as Hc
    by (refine (bool_decide_unpack _ _); vm_compute; exact I).
  assert (({["B"]} : gset string) ≠ ∅) as Hne
    by (refine (bool_decide_unpack _ _); vm_compute; exact I).
  destruct (second_tab_passes_unnoticed ∅ ∅ "C" (query "u2" "9" "9") two_users
              _ _ eq_refl Hg Hreg Hc Hne) as (Hu & _ & _ & _ & Hquiet).
  split; [exact Hu | exact Hquiet].
Defined.

(** A closes while B is connected as u2. *)
Lemma event_touches_own_identity_witness :
  jsmap_get "u2" (debtors (step two_users (EvClose "A" ∅)).1)
  = jsmap_get "u2" (debtors two_users)
  ∧ userConnections (step two_users (EvClose "A" ∅)).1 !! "u2"
    = userConnections two_users !! "u2".
Proof.
  apply (event_touches_own_identity two_users (EvClose "A" ∅) "u2").
  vm_compute. discriminate.
Defined.

Lemma lossy_start_well_sequenced : well_sequenced init lossy_start.
Proof.
  unfold lossy_start. cbn [well_sequenced].
  repeat split; refine (bool_decide_unpack _ _); vm_compute; exact I.
Defined.



(** After the send to A has failed and before the close of A is handled,
    A is in the set of u1 and is closed, not open. *)
Lemma registry_mirrors_live_states_witness :
  (∃ conns, userConnections (run init lossy_start).1 !! "u1" = Some conns
            ∧ "A" ∈ conns)
  ↔ (("A" ∈ live (run init lossy_start).1
      ∨ "A" ∈ closed (run init lossy_start).1)
     ∧ connState (run init lossy_start).1 !! "A"
       = Some {| userId := "u1"; connectionId := "A" |}).
Proof.
  apply (registry_mirrors_live_states lossy_start
           lossy_start_well_sequenced "u1" "A").
Defined.

(** At that moment u1 still has its record. *)
Lemma records_follow_live_connections_witness :
  is_Some (jsmap_get "u1" (debtors (run init lossy_start).1))
  ↔ ∃ c, (c ∈ live (run init lossy_start).1
          ∨ c ∈ closed (run init lossy_start).1)
         ∧ connState (run init lossy_start).1 !! c
           = Some {| userId := "u1"; connectionId := c |}.
Proof.
  apply (proj1 (records_follow_live_connections lossy_start
                  lossy_start_well_sequenced) "u1").
Defined.

(** C joins as a second connection of u2 while u1 and u2 are stored. *)
Lemma rejoin_snapshot_is_complete_witness :
  ∃ ds, (onConnect ∅ "C" (query "u2" "9" "9") two_users []).2.*2
        = add_debtor <$> ds
        ∧ ds ≡ₚ (debtors (onConnect ∅ "C" (query "u2" "9" "9") two_users []).1.2).*2.
Proof.
  assert (jsmap_get (resolve_userId "C" (query "u2" "9" "9")) (debtors two_users)
          = Some (new_debtorInfo "u2" "2" "2" (entropy 7))) as Hg
    by (vm_compute; reflexivity).
  assert (NoDup (jsmap_keys (debtors two_users))) as Hnd
    by (refine (bool_decide_unpack _ _); vm_compute; exact I).
  destruct (rejoin_snapshot_is_complete ∅ "C" (query "u2" "9" "9") two_users
              _ eq_refl Hg Hnd (not_elem_of_empty "C"))
    as (_ & _ & ds & Hlog & _ & Hperm).
  exists ds. split; [exact Hlog | exact Hperm].
Defined.

(** The second server: C connects while A and B are connected. *)
Lemma per_connection_connect_is_complete_witness :
  inbox "A" (PerConnection.onConnect ∅ "C" (query "x" "3" "3")
               three_connections []).2
  = [add_debtor (new_debtorInfo "C" "3" "3" (entropy 14))]
  ∧ length (inbox "C" (PerConnection.onConnect ∅ "C" (query "x" "3" "3")
                         three_connections []).2) = 3.
Proof.
  assert (NoDup (PerConnection.connections three_connections).*1) as Hnd
    by (refine (bool_decide_unpack _ _); vm_compute; exact I).
  assert ("C" ∈ (PerConnection.connections three_connections).*1) as Hc
    by (refine (bool_decide_unpack _ _); vm_compute; exact I).
  assert ("A" ∈ (PerConnection.connections three_connections).*1) as Ha
    by (refine (bool_decide_unpack _ _); vm_compute; exact I).
  assert (Forall (λ e, e.1 = "C" ∨ is_Some e.2)
            (PerConnection.connections three_connections)) as Hst.
  { repeat (constructor; [first [by left | right; by eexists]|]).
    constructor. }
  destruct (per_connection_connect_is_complete "C" (query "x" "3" "3")
              three_connections eq_refl Hnd Hc Hst)
    as (_ & Hown & Hlen & _ & Hpeers & _).
  split.
  - apply (Hpeers "A" Ha). discriminate.
  - rewrite Hown, length_fmap. exact Hlen.
Defined.

(** The second server: C connects while Z is registered without state. *)
Lemma per_connection_stateless_peer_evicts_newcomer_witness :
  ("A", remove_debtor "C")
  ∈ (PerConnection.onConnect ∅ "C" (query "x" "3" "3") stale_peer []).2.
Proof.
  apply (per_connection_stateless_peer_evicts_newcomer "C" "Z" "A"
           (query "x" "3" "3") stale_peer eq_refl).
  - simpl. apply list_elem_of_further, list_elem_of_here.
  - discriminate.
  - refine (bool_decide_unpack _ _); vm_compute; exact I.
  - discriminate.
Defined.

(** A browser with empty storage connects at clock 1700000000000. *)
Lemma generated_identity_name_witness :
  let userId :=
    (Client.getPersistentUserId "1700000000000" "k3x9q2m1a" ∅).1 in
  userId = "user_1700000000000_k3x9q2m1a"
  ∧ ∃ d, jsmap_get userId
           (debtors (step init
                       (EvConnect "c1"
                          (Client.socket_query "11.5" "104.9" userId) ∅)).1)
         = Some d
         ∧ id (position d) = userId
         ∧ name d = Some "Debtor user_1".
Proof.
  split; [reflexivity|].
  refine (generated_identity_name (Ascii.ascii_of_nat 49) "700000000000"
            "k3x9q2m1a" "11.5" "104.9" "c1" ∅ ∅ init eq_refl eq_refl _ _
            eq_refl);
    discriminate.
Defined.

End MoreWitnesses.
